(** * sitio_personal: the search engine (js/buscador.js) and the translation
      store (js/i18n.js), embedded and verified.

    Text is a list of code units, and a code unit is modelled by an
    [ascii]: the texts of this development are the texts whose units are
    at most U+00FF, and what is proved is proved of these.  The case
    mappings of the engine ([toLowerCase],
    [toUpperCase], and the Canonicalize of the RegExp [i] flag that is
    derived from [toUpperCase]) are not fixed here: they are members of
    the runtime, and may change the length of a text.  What a theorem
    needs of them on the text it speaks of is a hypothesis of that
    theorem. *)

From stdpp Require Import gmap strings list.
From Equations Require Import Equations.
From Stdlib Require Import Ascii ZArith Lia Sorted.

Set Warnings "-register-all".
Local Open Scope Z_scope.
Local Open Scope list_scope.

(** ** JavaScript strings *)

Module Text.

Abbreviation str := (list ascii).

Definition txt (s : string) : str := String.list_ascii_of_string s.
Global Arguments txt : simpl never.

Definition unit_in (lo hi : nat) (c : ascii) : bool :=
  let n := nat_of_ascii c in (Nat.leb lo n && Nat.leb n hi)%bool.

(** ASCII lower case and upper case, as the DOM applies them to the
    names of tags. *)
Definition ascii_lower_unit (c : ascii) : ascii :=
  if unit_in 65 90 c then ascii_of_nat (nat_of_ascii c + 32) else c.

Definition ascii_upper_unit (c : ascii) : ascii :=
  if unit_in 97 122 c then ascii_of_nat (nat_of_ascii c - 32) else c.

Definition ascii_lowercase (s : str) : str := map ascii_lower_unit s.
Definition ascii_uppercase (s : str) : str := map ascii_upper_unit s.

(** WhiteSpace and LineTerminator units stripped by [trim]:
    TAB, LF, VT, FF, CR, SP, NBSP. *)
Definition is_white (c : ascii) : bool :=
  (unit_in 9 13 c || unit_in 32 32 c || unit_in 160 160 c)%bool.

Fixpoint trimStart (s : str) : str :=
  match s with
  | c :: s' => if is_white c then trimStart s' else s
  | [] => []
  end.

Definition trimEnd (s : str) : str := rev (trimStart (rev s)).

Definition trim (s : str) : str := trimEnd (trimStart s).

Fixpoint starts_with (p s : str) : bool :=
  match p, s with
  | [], _ => true
  | a :: p', b :: s' => (Ascii.eqb a b && starts_with p' s')%bool
  | _ :: _, [] => false
  end.

Fixpoint index_from (p s : str) (i : Z) : Z :=
  if starts_with p s then i
  else match s with
       | [] => -1
       | _ :: s' => index_from p s' (i + 1)
       end.

(** [s.indexOf(p)]: the first index where [p] occurs, or -1. *)
Definition indexOf (s p : str) : Z := index_from p s 0.

Definition clamp (n : Z) (len : nat) : nat :=
  Z.to_nat (Z.min (Z.max n 0) (Z.of_nat len)).

(** [s.substring(a, b)]: both ends clamped to [0, length], swapped when
    out of order. *)
Definition substring (s : str) (a b : Z) : str :=
  let a' := clamp a (length s) in
  let b' := clamp b (length s) in
  take (Nat.max a' b' - Nat.min a' b') (drop (Nat.min a' b') s).

Definition strlen (s : str) : Z := Z.of_nat (length s).

End Text.
Import Text.

(** ** The RegExp engine, for the fragment of pattern syntax the site uses

    [new RegExp(src, flags)] parses [src]; [String.prototype.replace] with a
    global RegExp scans the subject from left to right, replaces each match
    and resumes after it.  The matcher is the backtracking matcher of the
    language definition, written with continuations. *)

Module RegExp.

Inductive cset := Digit | Word | Space.

Inductive citem :=
| CChar (c : ascii)
| CRange (lo hi : ascii)
| CEsc (neg : bool) (k : cset).

Inductive regex :=
| REmpty
| RChar (c : ascii)
| RAny
| RSet (neg : bool) (items : list citem)
| RBol
| REol
| RSeq (r1 r2 : regex)
| RAlt (r1 r2 : regex)
| RRepeat (mn : nat) (mx : option nat) (greedy : bool) (r : regex)
| RGroup (n : nat) (r : regex).

(** *** Pattern syntax *)

Inductive tok :=
| TBol | TEol | TOpen | TClose | TBar | TLBrack | TDot | TBackslash
| TStar | TPlus | TQuest | TLBrace | TLit.

Definition classify (c : ascii) : tok :=
  match c with
  | "^" => TBol
  | "$" => TEol
  | "(" => TOpen
  | ")" => TClose
  | "|" => TBar
  | "[" => TLBrack
  | "." => TDot
  | "\" => TBackslash
  | "*" => TStar
  | "+" => TPlus
  | "?" => TQuest
  | "{" => TLBrace
  | _ => TLit
  end%char.

Definition is_digit (c : ascii) : bool := unit_in 48 57 c.

Definition is_word (c : ascii) : bool :=
  (unit_in 48 57 c || unit_in 65 90 c || unit_in 97 122 c || unit_in 95 95 c)%bool.

(** [\d \D \w \W \s \S], the control escapes [\t \n \v \f \r], and the
    identity escape of a unit that is not a letter, a digit or [_]. *)
Definition class_escape (c : ascii) : option citem :=
  match c with
  | "d" => Some (CEsc false Digit)
  | "D" => Some (CEsc true Digit)
  | "w" => Some (CEsc false Word)
  | "W" => Some (CEsc true Word)
  | "s" => Some (CEsc false Space)
  | "S" => Some (CEsc true Space)
  | "t" => Some (CChar (ascii_of_nat 9))
  | "n" => Some (CChar (ascii_of_nat 10))
  | "v" => Some (CChar (ascii_of_nat 11))
  | "f" => Some (CChar (ascii_of_nat 12))
  | "r" => Some (CChar (ascii_of_nat 13))
  | _ => if is_word c then None else Some (CChar c)
  end%char.

Definition atom_escape (c : ascii) : option regex :=
  match class_escape c with
  | Some (CChar a) => Some (RChar a)
  | Some i => Some (RSet false [i])
  | None => None
  end.

(** The members of a bracket class, up to the closing bracket.  A dash
    that is not escaped is kept apart: between two plain members it makes
    a range. *)
Inductive ctoken := CT (i : citem) | CDash.

Fixpoint parse_items (s : str) : option (list ctoken * str) :=
  match s with
  | [] => None
  | c :: s1 =>
      if Ascii.eqb c "]" then Some ([], s1)
      else if Ascii.eqb c "\" then
        match s1 with
        | e :: s2 =>
            match class_escape e, parse_items s2 with
            | Some i, Some (ts, s3) => Some (CT i :: ts, s3)
            | _, _ => None
            end
        | [] => None
        end
      else
        match parse_items s1 with
        | Some (ts, s2) =>
            Some ((if Ascii.eqb c "-" then CDash else CT (CChar c)) :: ts, s2)
        | None => None
        end
  end.

Fixpoint ranges (ts : list ctoken) : list citem :=
  match ts with
  | CT (CChar a) :: ts1 =>
      match ts1 with
      | CDash :: CT (CChar b) :: ts2 => CRange a b :: ranges ts2
      | _ => CChar a :: ranges ts1
      end
  | CT i :: ts1 => i :: ranges ts1
  | CDash :: ts1 => CChar "-" :: ranges ts1
  | [] => []
  end.

Definition parse_class (s : str) : option (bool * list citem * str) :=
  match s with
  | c :: s1 =>
      if Ascii.eqb c "^" then
        match parse_items s1 with
        | Some (ts, s2) => Some (true, ranges ts, s2)
        | None => None
        end
      else
        match parse_items s with
        | Some (ts, s2) => Some (false, ranges ts, s2)
        | None => None
        end
  | [] => None
  end.

Fixpoint parse_nat (s : str) (acc : nat) : nat * str :=
  match s with
  | c :: s' => if is_digit c
               then parse_nat s' (10 * acc + (nat_of_ascii c - 48))%nat
               else (acc, s)
  | [] => (acc, [])
  end.

Definition starts_digit (s : str) : bool :=
  match s with c :: _ => is_digit c | [] => false end.

(** [{n}], [{n,}], [{n,m}]. *)
Definition parse_braces (s : str) : option (nat * option nat * str) :=
  if starts_digit s then
    let '(n, s1) := parse_nat s 0 in
    match s1 with
    | c :: s2 =>
        if Ascii.eqb c "}" then Some (n, Some n, s2)
        else if Ascii.eqb c "," then
          match s2 with
          | d :: s3 =>
              if Ascii.eqb d "}" then Some (n, None, s3)
              else if is_digit d then
                let '(m, s4) := parse_nat s2 0 in
                match s4 with
                | e :: s5 => if Ascii.eqb e "}" then Some (n, Some m, s5) else None
                | [] => None
                end
              else None
          | [] => None
          end
        else None
    | [] => None
    end
  else None.

Definition parse_quant (s : str) : option (nat * option nat * str) :=
  match s with
  | c :: s1 =>
      match classify c with
      | TStar => Some (0%nat, None, s1)
      | TPlus => Some (1%nat, None, s1)
      | TQuest => Some (0%nat, Some 1%nat, s1)
      | TLBrace => parse_braces s1
      | _ => None
      end
  | [] => None
  end.

(** An atom followed by its optional quantifier; a [?] after the
    quantifier makes it lazy. *)
Definition quantified (r : regex) (gi : nat) (s : str) : option (regex * nat * str) :=
  match parse_quant s with
  | Some (mn, mx, s1) =>
      match s1 with
      | c :: s2 => if Ascii.eqb c "?" then Some (RRepeat mn mx false r, gi, s2)
                   else Some (RRepeat mn mx true r, gi, s1)
      | [] => Some (RRepeat mn mx true r, gi, s1)
      end
  | None => Some (r, gi, s)
  end.

(** Disjunction, Alternative and Term of the pattern grammar; [gi] is the
    number of the next capturing group.  [None] is a SyntaxError (or a
    construct outside the fragment: [(?...)], back references, [\b]). *)
Fixpoint parse_disj (fuel gi : nat) (s : str) : option (regex * nat * str) :=
  match fuel with
  | O => None
  | S f =>
      match parse_alt f gi s with
      | Some (a, gi1, c :: s1) =>
          if Ascii.eqb c "|" then
            match parse_disj f gi1 s1 with
            | Some (d, gi2, s2) => Some (RAlt a d, gi2, s2)
            | None => None
            end
          else Some (a, gi1, c :: s1)
      | other => other
      end
  end
with parse_alt (fuel gi : nat) (s : str) : option (regex * nat * str) :=
  match fuel with
  | O => None
  | S f =>
      match s with
      | [] => Some (REmpty, gi, [])
      | c :: _ =>
          match classify c with
          | TBar | TClose => Some (REmpty, gi, s)
          | _ =>
              match parse_term f gi s with
              | Some (t, gi1, s1) =>
                  match parse_alt f gi1 s1 with
                  | Some (a, gi2, s2) => Some (RSeq t a, gi2, s2)
                  | None => None
                  end
              | None => None
              end
          end
      end
  end
with parse_term (fuel gi : nat) (s : str) : option (regex * nat * str) :=
  match fuel with
  | O => None
  | S f =>
      match s with
      | [] => None
      | c :: s1 =>
          match classify c with
          | TBol => Some (RBol, gi, s1)
          | TEol => Some (REol, gi, s1)
          | TOpen =>
              if starts_with ["?"%char] s1 then None
              else match parse_disj f (S gi) s1 with
                   | Some (d, gi1, e :: s2) =>
                       if Ascii.eqb e ")" then quantified (RGroup gi d) gi1 s2 else None
                   | _ => None
                   end
          | TLBrack =>
              match parse_class s1 with
              | Some (neg, its, s2) => quantified (RSet neg its) gi s2
              | None => None
              end
          | TDot => quantified RAny gi s1
          | TBackslash =>
              match s1 with
              | e :: s2 =>
                  match atom_escape e with
                  | Some r => quantified r gi s2
                  | None => None
                  end
              | [] => None
              end
          | TStar | TPlus | TQuest | TClose | TBar => None
          | TLBrace =>
              match parse_braces s1 with
              | Some _ => None
              | None => quantified (RChar c) gi s1
              end
          | TLit => quantified (RChar c) gi s1
          end
      end
  end.

Record flags := { ignoreCase : bool; global : bool }.

Definition parse_flags (f : str) : flags :=
  {| ignoreCase := existsb (Ascii.eqb "i") f; global := existsb (Ascii.eqb "g") f |}.

Record RegExp := { source : regex; rflags : flags }.

(** [new RegExp(src, flags)].  Group 0 is the whole match, so the first
    parenthesis of the pattern is group 1. *)
Definition new_RegExp (src fl : str) : option RegExp :=
  match parse_disj (3 * length src + 3) 1 src with
  | Some (r, _, []) => Some {| source := r; rflags := parse_flags fl |}
  | _ => None
  end.

(** *** Matching *)

(** Canonicalize of a RegExp with the [i] flag and without the [u] flag:
    the unit of [toUpperCase] of the one-unit string, unless that string
    has not one unit, or the unit is outside ASCII and its upper case is
    in ASCII. *)
Definition canonicalize (toUpperCase : str -> str) (ch : ascii) : ascii :=
  match toUpperCase [ch] with
  | [cu] =>
      if (Nat.leb 128 (nat_of_ascii ch) && Nat.ltb (nat_of_ascii cu) 128)%bool
      then ch else cu
  | _ => ch
  end.

Definition all_units : list ascii := map ascii_of_nat (seq 0 256).

Section Matching.

(** The canonical form of a unit under the [i] flag. *)
Variable canon : ascii -> ascii.

Definition unit_eq (ic : bool) (a b : ascii) : bool :=
  if ic then Ascii.eqb (canon a) (canon b) else Ascii.eqb a b.

Definition in_cset (k : cset) (c : ascii) : bool :=
  match k with
  | Digit => is_digit c
  | Word => is_word c
  | Space => is_white c
  end.

Definition item_has (i : citem) (c : ascii) : bool :=
  match i with
  | CChar a => Ascii.eqb a c
  | CRange lo hi => unit_in (nat_of_ascii lo) (nat_of_ascii hi) c
  | CEsc neg k => xorb neg (in_cset k c)
  end.

(** With [i], a unit is in the set when some member of the set has the
    same canonical form. *)
Definition set_has (ic : bool) (its : list citem) (c : ascii) : bool :=
  existsb (fun i =>
    (item_has i c
     || (ic && existsb (fun a => item_has i a && Ascii.eqb (canon a) (canon c)) all_units))%bool)
    its.

Definition is_line_end (c : ascii) : bool :=
  (unit_in 10 10 c || unit_in 13 13 c)%bool.

Record mstate := { pos : nat; rest : str; caps : list (nat * str) }.

Definition step (x : mstate) (s : str) : mstate :=
  {| pos := S (pos x); rest := s; caps := caps x |}.

Definition set_cap (n : nat) (x0 x : mstate) : mstate :=
  {| pos := pos x; rest := rest x;
     caps := (n, take (pos x - pos x0) (rest x0)) :: caps x |}.

Definition one_unit (p : ascii -> bool) (x : mstate) (k : mstate -> option mstate)
  : option mstate :=
  match rest x with
  | a :: s => if p a then k (step x s) else None
  | [] => None
  end.

(** [rmatch ic r x k]: match [r] at [x], then [k].  In a repetition an
    iteration that matches the empty string is refused once the minimum
    is reached, so the fuel (minimum plus what is left of the subject)
    suffices; the captures of the groups inside it are kept from one
    iteration to the next. *)
Fixpoint rmatch (ic : bool) (r : regex) (x : mstate) (k : mstate -> option mstate)
  : option mstate :=
  match r with
  | REmpty => k x
  | RChar c => one_unit (fun a => unit_eq ic a c) x k
  | RAny => one_unit (fun a => negb (is_line_end a)) x k
  | RSet neg its => one_unit (fun a => xorb neg (set_has ic its a)) x k
  | RBol => if Nat.eqb (pos x) 0 then k x else None
  | REol => match rest x with [] => k x | _ :: _ => None end
  | RSeq r1 r2 => rmatch ic r1 x (fun y => rmatch ic r2 y k)
  | RAlt r1 r2 =>
      match rmatch ic r1 x k with
      | Some z => Some z
      | None => rmatch ic r2 x k
      end
  | RGroup n r1 => rmatch ic r1 x (fun y => k (set_cap n x y))
  | RRepeat mn mx greedy r1 =>
      (fix rep (fuel mn : nat) (mx : option nat) (x : mstate) {struct fuel}
         : option mstate :=
         match fuel with
         | O => None
         | S fuel' =>
             match mx with
             | Some O => k x
             | _ =>
                 let d := fun y =>
                   if (Nat.eqb mn 0 && Nat.eqb (pos y) (pos x))%bool then None
                   else rep fuel' (Nat.pred mn) (option_map Nat.pred mx) y in
                 if negb (Nat.eqb mn 0) then rmatch ic r1 x d
                 else if greedy then
                   match rmatch ic r1 x d with
                   | Some z => Some z
                   | None => k x
                   end
                 else
                   match k x with
                   | Some z => Some z
                   | None => rmatch ic r1 x d
                   end
             end
         end) (S (mn + length (rest x))) mn mx x
  end.

(** One attempt of the matcher at position [p], where [s] is what is
    left of the subject. *)
Definition match_at (re : RegExp) (p : nat) (s : str) : option mstate :=
  rmatch (ignoreCase (rflags re)) (source re)
         {| pos := p; rest := s; caps := [] |} Some.

(** *** Replacement *)

Fixpoint get_cap (n : nat) (cs : list (nat * str)) : str :=
  match cs with
  | (m, v) :: cs' => if Nat.eqb m n then v else get_cap n cs'
  | [] => []
  end.

(** GetSubstitution for [$$], [$&] and [$1]..[$9]. *)
Fixpoint expand (tmpl matched : str) (cs : list (nat * str)) : str :=
  match tmpl with
  | [] => []
  | c :: t1 =>
      if Ascii.eqb c "$" then
        match t1 with
        | d :: t2 =>
            if Ascii.eqb d "$" then "$"%char :: expand t2 matched cs
            else if Ascii.eqb d "&" then matched ++ expand t2 matched cs
            else if unit_in 49 57 d
                 then get_cap (nat_of_ascii d - 48) cs ++ expand t2 matched cs
                 else c :: expand t1 matched cs
        | [] => [c]
        end
      else c :: expand t1 matched cs
  end.

(** The scan of a global replace.  [skip] counts the units of the last
    match that are still to be passed over. *)
Fixpoint replace_scan (re : RegExp) (tmpl : str) (p skip : nat) (s : str) : str :=
  match skip with
  | S k =>
      match s with
      | [] => []
      | _ :: s' => replace_scan re tmpl (S p) k s'
      end
  | O =>
      match match_at re p s with
      | Some y =>
          let len := (pos y - p)%nat in
          expand tmpl (take len s) (caps y) ++
          match s with
          | [] => []
          | c :: s' =>
              match len with
              | O => c :: replace_scan re tmpl (S p) 0 s'
              | S k => replace_scan re tmpl (S p) k s'
              end
          end
      | None =>
          match s with
          | [] => []
          | c :: s' => c :: replace_scan re tmpl (S p) 0 s'
          end
      end
  end.

(** Without [g] only the first match is replaced. *)
Fixpoint replace_first (re : RegExp) (tmpl : str) (p : nat) (s : str) : str :=
  match match_at re p s with
  | Some y => expand tmpl (take (pos y - p) s) (caps y) ++ drop (pos y - p) s
  | None =>
      match s with
      | [] => []
      | c :: s' => c :: replace_first re tmpl (S p) s'
      end
  end.

(** [s.replace(re, tmpl)]. *)
Definition replace (s : str) (re : RegExp) (tmpl : str) : str :=
  if global (rflags re) then replace_scan re tmpl 0 0 s
  else replace_first re tmpl 0 s.

End Matching.

End RegExp.
Import RegExp.

(** ** Effects: exceptions, the network, the console

    An [async] function is run to completion: the site has one logical
    thread and every [await] is of a promise that settles, so a call is a
    state transformer that either returns or throws (a rejected promise). *)

Module Eff.

Inductive exn :=
| TypeError (msg : str)
| SyntaxError (msg : str)
| InvalidCharacterError (msg : str)
| Error (msg : str).

Definition M (S A : Type) : Type := S -> (exn + A) * S.

Definition ret {S A} (a : A) : M S A := fun w => (inr a, w).

Definition bind {S A B} (c : M S A) (k : A -> M S B) : M S B :=
  fun w => match c w with
           | (inr a, w1) => k a w1
           | (inl e, w1) => (inl e, w1)
           end.

Definition throw {S A} (e : exn) : M S A := fun w => (inl e, w).

(** [try { c } catch (e) { h e }] *)
Definition try_catch {S A} (c : M S A) (h : exn -> M S A) : M S A :=
  fun w => match c w with
           | (inr a, w1) => (inr a, w1)
           | (inl e, w1) => h e w1
           end.

Definition get {S} : M S S := fun w => (inr w, w).
Definition modify {S} (f : S -> S) : M S unit := fun w => (inr tt, f w).
Definition of_sum {S A} (r : exn + A) : M S A := fun w => (r, w).

Fixpoint mapM {S A B} (f : A -> M S B) (l : list A) : M S (list B) :=
  match l with
  | [] => ret []
  | a :: l' => bind (f a) (fun b => bind (mapM f l') (fun bs => ret (b :: bs)))
  end.

End Eff.
Import Eff.

Notation "'do' x <- c ; k" := (bind c (fun x => k))
  (at level 10, x name, c at level 100, k at level 200).
Notation "'seq' c ; k" := (bind c (fun _ => k))
  (at level 10, c at level 100, k at level 200).

(** ** JavaScript values and property access *)

Module Json.

(** The values that a lookup in a translation table can reach: JSON data
    (numbers are kept as integers), and [JNative], a built-in function
    found on a prototype, as [constructor] or [toString] are on every
    object. *)
Inductive json :=
| JNull
| JBool (b : bool)
| JNum (z : Z)
| JStr (s : str)
| JArr (l : list json)
| JObj (m : gmap (list ascii) json)
| JNative (name : str).

(** A JavaScript value: [None] is [undefined]. *)
Abbreviation jsval := (option json).

(** ToBoolean *)
Definition truthy (v : jsval) : bool :=
  match v with
  | None | Some JNull => false
  | Some (JBool b) => b
  | Some (JNum z) => negb (z =? 0)
  | Some (JStr s) => negb (Nat.eqb (length s) 0)
  | Some (JArr _) | Some (JObj _) | Some (JNative _) => true
  end.

(** [a || b] *)
Definition or_else (a b : jsval) : jsval := if truthy a then a else b.

(** An array index written canonically: decimal, no leading zero. *)
Definition index_of_key (k : str) : option nat :=
  match k with
  | [] => None
  | c :: k' =>
      if (forallb is_digit k && (negb (Ascii.eqb c "0") || Nat.eqb (length k') 0))%bool
      then Some (fst (parse_nat k 0)) else None
  end.

(** The own properties of an array or a string of [n] elements:
    [length] and the indices below it. *)
Definition indexed (n : nat) (elem : nat -> jsval) (k : str) : jsval :=
  if decide (k = txt "length") then Some (JNum (Z.of_nat n))
  else match index_of_key k with
       | Some i => elem i
       | None => None
       end.

(** The own properties of a value: the members of an object, the
    elements and [length] of an array or of a string. *)
Definition own (j : json) (k : str) : jsval :=
  match j with
  | JObj m => m !! k
  | JArr l => indexed (length l) (fun i => l !! i) k
  | JStr s => indexed (length s) (fun i => (fun c => JStr [c]) <$> s !! i) k
  | JNull | JBool _ | JNum _ | JNative _ => None
  end.

(** The names of the accessors of [Function.prototype] that throw. *)
Definition restricted (k : str) : bool :=
  bool_decide (k = txt "caller" ∨ k = txt "arguments").

Section Properties.

(** What the prototype chain of a value gives for a name that is not an
    own property of the value; it depends on the engine. *)
Variable proto : json -> str -> jsval.

(** [j[k]] *)
Definition prop (j : json) (k : str) : jsval :=
  match own j k with
  | Some x => Some x
  | None => proto j k
  end.

(** [v[k]]: reading a property of [null] or [undefined] throws, and so
    does reading [caller] or [arguments] of a built-in function: they are
    accessors of [Function.prototype] whose getter throws.  No other read
    throws: the prototypes of data have no such accessor. *)
Definition get_prop (v : jsval) (k : str) : exn + jsval :=
  match v with
  | None | Some JNull => inl (TypeError (txt "Cannot read properties of null or undefined"))
  | Some (JNative f) =>
      if restricted k
      then inl (TypeError (txt "'caller', 'callee', and 'arguments' properties may not be accessed"))
      else inr (prop (JNative f) k)
  | Some j => inr (prop j k)
  end.

End Properties.

Fixpoint digits (fuel n : nat) (acc : str) : str :=
  match fuel with
  | O => acc
  | S f =>
      let acc' := ascii_of_nat (48 + n mod 10) :: acc in
      if Nat.eqb (n / 10) 0 then acc' else digits f (n / 10) acc'
  end.

Definition show_Z (z : Z) : str :=
  let n := Z.abs_nat z in
  (if z <? 0 then ["-"%char] else []) ++ digits (S n) n [].

(** The string that ToString gives for a value, when it gives one. *)
Fixpoint to_text (v : json) : str :=
  match v with
  | JNull => txt "null"
  | JBool true => txt "true"
  | JBool false => txt "false"
  | JNum z => show_Z z
  | JStr s => s
  | JArr l =>
      (fix join (l : list json) : str :=
         match l with
         | [] => []
         | [x] => match x with JNull => [] | _ => to_text x end
         | x :: l' => match x with JNull => [] | _ => to_text x end ++ ","%char :: join l'
         end) l
  | JObj _ => txt "[object Object]"
  | JNative name => txt "function " ++ name ++ txt "() { [native code] }"
  end.

(** Whether ToString gives a string for the value.  For an object it
    calls the [toString] it finds on it, which is the one of
    [Object.prototype] unless the object has a member of that name; such
    a member is data and cannot be called, [valueOf] gives no primitive
    value either, and the conversion throws.  The [join] of an array
    converts each element that is not [null]. *)
Fixpoint converts (v : json) : bool :=
  match v with
  | JObj m => bool_decide (m !! txt "toString" = None)
  | JArr l => forallb converts l
  | JNull | JBool _ | JNum _ | JStr _ | JNative _ => true
  end.

Definition not_primitive : exn :=
  TypeError (txt "Cannot convert object to primitive value").

(** ToString *)
Definition to_string (v : json) : exn + str :=
  if converts v then inr (to_text v) else inl not_primitive.

End Json.
Import Json.

(** ** The browser environment *)

Module Env.

Record response := {
  ok : bool;
  text : option str;      (* what [r.text()] resolves to; [None]: it rejects *)
  json_body : option json (* what [r.json()] resolves to; [None]: it rejects *)
}.

(** What [fetch(url)] settles to.  A response with a status outside
    200-299 is still a fulfilment, with [ok = false]. *)
Inductive fetched :=
| NetworkError
| Fulfilled (r : response).

Record env := {
  net : str -> fetched;
  requests : list str;            (* the URLs fetched so far, oldest first *)
  console : list str;             (* console.error lines, oldest first *)
  localStorage : gmap (list ascii) (list ascii);
  navigator_language : str;
  document_lang : str
}.

Definition log_request (u : str) (e : env) : env :=
  {| net := net e; requests := requests e ++ [u]; console := console e;
     localStorage := localStorage e; navigator_language := navigator_language e;
     document_lang := document_lang e |}.

Definition log_error (m : str) (e : env) : env :=
  {| net := net e; requests := requests e; console := console e ++ [m];
     localStorage := localStorage e; navigator_language := navigator_language e;
     document_lang := document_lang e |}.

Definition set_item (k v : str) (e : env) : env :=
  {| net := net e; requests := requests e; console := console e;
     localStorage := <[k:=v]> (localStorage e);
     navigator_language := navigator_language e;
     document_lang := document_lang e |}.

Definition set_document_lang (l : str) (e : env) : env :=
  {| net := net e; requests := requests e; console := console e;
     localStorage := localStorage e; navigator_language := navigator_language e;
     document_lang := l |}.

Definition exn_text (e : exn) : str :=
  match e with
  | TypeError m => txt "TypeError: " ++ m
  | SyntaxError m => txt "SyntaxError: " ++ m
  | InvalidCharacterError m => txt "InvalidCharacterError: " ++ m
  | Error m => txt "Error: " ++ m
  end.

(** [s.split(sep)] for a one-unit separator: never empty. *)
Fixpoint split (sep : ascii) (s : str) : list str :=
  match s with
  | [] => [[]]
  | c :: s' =>
      if Ascii.eqb c sep then [] :: split sep s'
      else match split sep s' with
           | h :: t => (c :: h) :: t
           | [] => [[c]]
           end
  end.

End Env.
Import Env.

(** ** The document tree *)

Module Dom.

Inductive node :=
| TextNode (data : str)
| Element (tagName : str) (attrs : list (str * str)) (value : str)
          (children : list node).

Fixpoint assoc (k : str) (l : list (str * str)) : option str :=
  match l with
  | [] => None
  | (a, v) :: l' => if decide (a = k) then Some v else assoc k l'
  end.

Fixpoint assoc_set (k v : str) (l : list (str * str)) : list (str * str) :=
  match l with
  | [] => [(k, v)]
  | (a, w) :: l' => if decide (a = k) then (a, v) :: l' else (a, w) :: assoc_set k v l'
  end.

Definition getAttribute (k : str) (n : node) : option str :=
  match n with
  | Element _ attrs _ _ => assoc k attrs
  | TextNode _ => None
  end.

Definition hasAttribute (k : str) (n : node) : bool :=
  match getAttribute k n with Some _ => true | None => false end.

(** [el.setAttribute(k, v)] for a name [k] that is valid and in lower
    case, as the constant names of the code are.  A name read from the
    document goes through the check of [translate_one]. *)
Definition setAttribute (k v : str) (n : node) : node :=
  match n with
  | Element t attrs x kids => Element t (assoc_set k v attrs) x kids
  | TextNode _ => n
  end.

Definition kids (n : node) : list node :=
  match n with
  | Element _ _ _ ks => ks
  | TextNode _ => []
  end.

Definition set_children (ks : list node) (n : node) : node :=
  match n with
  | Element t attrs x _ => Element t attrs x ks
  | TextNode _ => n
  end.

Definition set_value (v : str) (n : node) : node :=
  match n with
  | Element t attrs _ ks => Element t attrs v ks
  | TextNode _ => n
  end.

(** [el.value = v] on the element that the path leads to from [n]: a
    path is the list of the positions of the children to go through,
    and the empty path is [n] itself. *)
Fixpoint set_value_at (path : list nat) (v : str) (n : node) : node :=
  match path with
  | [] => set_value v n
  | i :: path' =>
      match n with
      | Element t attrs x ks => Element t attrs x (alter (set_value_at path' v) i ks)
      | TextNode _ => n
      end
  end.

Fixpoint textContent (n : node) : str :=
  match n with
  | TextNode d => d
  | Element _ _ _ ks =>
      (fix all (ks : list node) : str :=
         match ks with
         | [] => []
         | k :: ks' => textContent k ++ all ks'
         end) ks
  end.

(** [el.textContent = s] *)
Definition set_textContent (s : str) (n : node) : node :=
  set_children (match s with [] => [] | _ :: _ => [TextNode s] end) n.

Definition appendChild (c : node) (n : node) : node :=
  set_children (kids n ++ [c]) n.

Definition is_tag (sel : str) (n : node) : bool :=
  match n with
  | Element t _ _ _ => bool_decide (ascii_lowercase t = ascii_lowercase sel)
  | TextNode _ => false
  end.

(** The first element below [n], in document order, that a type
    selector matches. *)
Fixpoint querySelector (sel : str) (n : node) : option node :=
  match n with
  | TextNode _ => None
  | Element _ _ _ ks =>
      (fix first (ks : list node) : option node :=
         match ks with
         | [] => None
         | k :: ks' =>
             if is_tag sel k then Some k
             else match querySelector sel k with
                  | Some h => Some h
                  | None => first ks'
                  end
         end) ks
  end.

Definition createElement (t : str) : node := Element (ascii_uppercase t) [] [] [].

(** [doc.documentElement]: the first child of the document that is an
    element. *)
Definition documentElement (doc : node) : option node :=
  List.find (fun k => match k with Element _ _ _ _ => true | TextNode _ => false end)
            (kids doc).

(** [doc.body]: the first child of the [html] element that is a [body]
    or a [frameset], or [null]. *)
Definition body (doc : node) : option node :=
  match documentElement doc with
  | Some html =>
      if is_tag (txt "html") html
      then List.find (fun k => (is_tag (txt "body") k || is_tag (txt "frameset") k)%bool)
                     (kids html)
      else None
  | None => None
  end.

End Dom.
Import Dom.

(** ** The engine and the HTML parser of the browser *)

Module Runtime.

Record runtime := {
  (* the members that values inherit from the built-in prototypes *)
  proto : json -> str -> jsval;
  (* [String.prototype.toLowerCase] and [String.prototype.toUpperCase] *)
  toLowerCase : str -> str;
  toUpperCase : str -> str;
  (* whether [setAttribute] accepts the name; it throws when not *)
  valid_name : str -> bool;
  (* the fragment parser behind [innerHTML] *)
  parseHTML : str -> list node;
  (* the document that [new DOMParser().parseFromString(text, 'text/html')]
     builds: a node whose children are the children of the document *)
  parseFromString : str -> node
}.

(** Canonicalize of the RegExps of this engine that have the [i]
    flag. *)
Definition folding (rt : runtime) : ascii -> ascii := canonicalize (toUpperCase rt).

End Runtime.
Import Runtime.

(** ** js/i18n.js *)

Module I18n.

Record I18n := {
  currentLanguage : str;
  translations : gmap (list ascii) json;
  supportedLanguages : list str
}.

(** [a || b] where [a] is a string, [null] or [undefined]. *)
Definition str_or (a : option str) (b : option str) : option str :=
  match a with
  | Some (c :: s) => Some (c :: s)
  | _ => b
  end.

Definition getStoredLanguage (e : env) : option str :=
  str_or (localStorage e !! txt "language")
         (split "-" (navigator_language e) !! 0%nat).

Definition constructor (e : env) : I18n :=
  {| currentLanguage := default [] (str_or (getStoredLanguage e) (Some (txt "es")));
     translations := ∅;
     supportedLanguages := [txt "es"; txt "en"] |}.

Definition set_currentLanguage (l : str) (o : I18n) : I18n :=
  {| currentLanguage := l; translations := translations o;
     supportedLanguages := supportedLanguages o |}.

Definition set_translations (l : str) (v : json) (o : I18n) : I18n :=
  {| currentLanguage := currentLanguage o;
     translations := <[l:=v]> (translations o);
     supportedLanguages := supportedLanguages o |}.

Definition on_env {A} (c : M env A) : M (env * I18n) A :=
  fun '(e, o) => let '(r, e1) := c e in (r, (e1, o)).

Definition on_this (f : I18n -> I18n) : M (env * I18n) unit :=
  fun '(e, o) => (inr tt, (e, f o)).

Definition this : M (env * I18n) I18n := fun '(e, o) => (inr o, (e, o)).

(** [fetch(url)]: the request is issued, then the promise settles. *)
Definition fetch (u : str) : M env response :=
  fun e => match net e u with
           | Fulfilled r => (inr r, log_request u e)
           | NetworkError => (inl (TypeError (txt "Failed to fetch")), log_request u e)
           end.

Definition console_error (m : str) (x : exn) : M env unit :=
  modify (log_error (m ++ " "%char :: exn_text x)).

Definition setLanguage (lang : str) : M (env * I18n) bool :=
  do o <- this;
  if bool_decide (lang ∈ supportedLanguages o) then
    seq on_this (set_currentLanguage lang);
    seq on_env (modify (set_item (txt "language") lang));
    seq on_env (modify (set_document_lang lang));
    ret true
  else ret false.

(** [`i18n/${lang}.json`] *)
Definition translation_url (lang : str) : str := txt "i18n/" ++ lang ++ txt ".json".
Global Arguments translation_url : simpl never.

(** What a DOM setter writes for a value: [null] and [undefined] give
    the empty string. *)
Definition dom_string (v : jsval) : str :=
  match v with
  | None | Some JNull => []
  | Some j => to_text j
  end.

(** The conversion of a value that is given to a DOM setter or method;
    it is made before anything is written. *)
Definition dom_convert (v : jsval) : exn + str :=
  match v with
  | None | Some JNull => inr []
  | Some j => to_string j
  end.

Definition is_control (n : node) : bool :=
  match n with
  | Element tg _ _ _ => bool_decide (tg = txt "INPUT" ∨ tg = txt "TEXTAREA")
  | TextNode _ => false
  end.

Section WithRuntime.

Variable rt : runtime.

(** [this.translations[lang]] *)
Definition table_of (o : I18n) (lang : str) : jsval :=
  prop (proto rt) (JObj (translations o)) lang.

Definition loadTranslations (lang : str) : M (env * I18n) unit :=
  do o <- this;
  if truthy (table_of o lang) then ret tt
  else
    try_catch
      (do response <- on_env (fetch (translation_url lang));
       if negb (ok response)
       then throw (Error (txt "Failed to load " ++ lang ++ txt ".json"))
       else
         match json_body response with
         | Some j => on_this (set_translations lang j)
         | None => throw (SyntaxError (txt "Unexpected token in JSON"))
         end)
      (fun e =>
         seq on_env (console_error (txt "Error loading translations:") e);
         on_this (set_translations lang (JObj ∅))).

Definition init : M (env * I18n) unit :=
  do o <- this;
  seq loadTranslations (currentLanguage o);
  on_env (modify (set_document_lang (currentLanguage o))).

(** The loop of [t]: [obj = obj[k]; if (!obj) return key;]. *)
Fixpoint walk (key : str) (obj : jsval) (keys : list str) : exn + jsval :=
  match keys with
  | [] => inr obj
  | k :: ks =>
      match get_prop (proto rt) obj k with
      | inl e => inl e
      | inr o => if truthy o then walk key o ks else inr (Some (JStr key))
      end
  end.

Definition t (o : I18n) (key : str) : exn + jsval :=
  walk key (or_else (table_of o (currentLanguage o)) (Some (JObj ∅)))
       (split "." key).

(** The body of the [forEach] of [translate], on one element that
    carries [data-i18n], once the translation is converted to the string
    [text].  The second component tells whether the
    children of the element are still those the selector saw.
    [setAttribute] with the name read from [data-i18n-attr] throws when
    the name is not valid, the empty name in particular, and writes the
    name in ASCII lower case otherwise. *)
Definition translate_one (text : str) (el : node) : exn + node * bool :=
  if is_control el then
    if hasAttribute (txt "placeholder") el
    then inr (setAttribute (txt "placeholder") text el, true)
    else inr (set_value text el, true)
  else
    match getAttribute (txt "data-i18n-attr") el with
    | Some attr =>
        if valid_name rt attr
        then inr (setAttribute (ascii_lowercase attr) text el, true)
        else inl (InvalidCharacterError (txt "The string contains invalid characters"))
    | None =>
        if hasAttribute (txt "data-i18n-html") el
        then inr (set_children (parseHTML rt text) el, false)
        else inr (set_textContent text el, false)
    end.

(** The callback of the [forEach] on the element [n] of the list of
    [querySelectorAll('[data-i18n]')], and then on the elements below
    [n], which follow it in the list.  The list is fixed before the
    first callback: the elements that were below an element whose
    content was replaced are still visited, though they are no longer in
    the tree.  The result is the element as the visit leaves it, and the
    exception that ended the visit, if any: what was written before the
    exception stays written. *)
Fixpoint translate_element (o : I18n) (n : node) : node * option exn :=
  match n with
  | TextNode _ => (n, None)
  | Element _ _ _ ks =>
      let below (n1 : node) (attached : bool) : node * option exn :=
        let '(ks1, r) :=
          (fix each (ks : list node) : list node * option exn :=
             match ks with
             | [] => ([], None)
             | k :: ks' =>
                 match translate_element o k with
                 | (k1, Some e) => (k1 :: ks', Some e)
                 | (k1, None) => let '(ks1, r) := each ks' in (k1 :: ks1, r)
                 end
             end) ks in
        (if attached then set_children ks1 n1 else n1, r) in
      match getAttribute (txt "data-i18n") n with
      | None => below n true
      | Some key =>
          match t o key with
          | inl e => (n, Some e)
          | inr v =>
              match dom_convert v with
              | inl e => (n, Some e)
              | inr text =>
                  match translate_one text n with
                  | inl e => (n, Some e)
                  | inr (n1, same) => below n1 same
                  end
              end
          end
      end
  end.

(** The elements of a list of siblings, in order, up to the first
    exception. *)
Fixpoint translate_each (o : I18n) (ks : list node) : list node * option exn :=
  match ks with
  | [] => ([], None)
  | k :: ks' =>
      match translate_element o k with
      | (k1, Some e) => (k1 :: ks', Some e)
      | (k1, None) => let '(ks1, r) := translate_each o ks' in (k1 :: ks1, r)
      end
  end.

(** What [translate(element)] does to the tree under [element], also
    when it throws: [querySelectorAll] lists the elements below
    [element], not [element] itself. *)
Definition translate_run (o : I18n) (element : node) : node * option exn :=
  let '(ks1, r) := translate_each o (kids element) in (set_children ks1 element, r).

(** [translate(element)]: the tree it leaves when it returns. *)
Definition translate (o : I18n) (element : node) : exn + node :=
  match translate_run o element with
  | (d, None) => inr d
  | (_, Some e) => inl e
  end.

(** [switchLanguage(lang)]; [document] is the tree that [translate()]
    rewrites, and the tree it leaves is returned with the result.  When
    [translate()] throws, the call rejects, and the tree is left as
    [fst (translate_run o document)]. *)
Definition switchLanguage (lang : str) (document : node)
  : M (env * I18n) (bool * node) :=
  do changed <- setLanguage lang;
  if changed then
    seq loadTranslations lang;
    do o <- this;
    do d <- of_sum (translate o document);
    ret (true, d)
  else ret (false, document).

End WithRuntime.

End I18n.
Import I18n.

(** ** js/buscador.js *)

Module Buscador.

Record Buscador := {
  files : list str;
  param : str;
  inputSelector : str
}.

Record result := {
  file : option str;   (* [this.files[i]]: [None] is [undefined] *)
  snippet : str
}.

(** What [document.querySelector(selector)] does on the page: it throws
    when the string is not a selector, and finds nothing, or an element
    outside [this.resultsEl], given by its number, or an element of the
    tree of [this.resultsEl], given by its path from [this.resultsEl].
    Two selectors can find the same element. *)
Inductive input_lookup :=
| BadSelector
| NoInput
| Input (el : nat)
| Inside (path : list nat).

(** What the methods read and write: the environment, [window.i18n],
    the element [this.resultsEl] (or [null]), the parameters of
    [window.location.search], what the selectors find, and, for each
    element they find outside [this.resultsEl], the string that was
    assigned last to its [value]. *)
Record page := {
  penv : env;
  window_i18n : option I18n;
  resultsEl : option node;
  location_search : list (str * str);
  search_input : str -> input_lookup;
  input_value : nat -> str
}.

Definition default_files : list str :=
  [txt "index.html"; txt "aficiones.html"; txt "tecnologias.html";
   txt "formacion.html"; txt "contacto.html"].

Definition set_penv (e : env) (p : page) : page :=
  {| penv := e; window_i18n := window_i18n p; resultsEl := resultsEl p;
     location_search := location_search p; search_input := search_input p;
     input_value := input_value p |}.

Definition set_i18n (o : option I18n) (p : page) : page :=
  {| penv := penv p; window_i18n := o; resultsEl := resultsEl p;
     location_search := location_search p; search_input := search_input p;
     input_value := input_value p |}.

Definition set_resultsEl (n : option node) (p : page) : page :=
  {| penv := penv p; window_i18n := window_i18n p; resultsEl := n;
     location_search := location_search p; search_input := search_input p;
     input_value := input_value p |}.

Definition set_value_of (i : nat) (v : str) (p : page) : page :=
  {| penv := penv p; window_i18n := window_i18n p; resultsEl := resultsEl p;
     location_search := location_search p; search_input := search_input p;
     input_value := fun j => if decide (j = i) then v else input_value p j |}.

Definition lift_env {A} (c : M env A) : M page A :=
  fun p => let '(r, e) := c (penv p) in (r, set_penv e p).

(** A method call on [window.i18n]. *)
Definition lift_i18n {A} (c : M (env * I18n) A) : M page A :=
  fun p => match window_i18n p with
           | Some o => let '(r, (e, o1)) := c (penv p, o) in
                       (r, set_i18n (Some o1) (set_penv e p))
           | None => (inl (TypeError (txt "window.i18n is undefined")), p)
           end.

(** The RegExp literal of [escapeRegExp]. *)
Definition metachars_source : str := txt "[.*+?^${}()|[\]\\]".

Definition metachars : RegExp :=
  default {| source := REmpty; rflags := parse_flags [] |}
          (new_RegExp metachars_source (txt "g")).

(** The pattern has no [i] flag: Canonicalize is the identity. *)
Definition escapeRegExp (s : str) : str :=
  replace (fun c => c) s metachars (txt "\$&").

Definition getQuery (b : Buscador) : M page str :=
  do p <- get;
  ret (trim (default [] (str_or (assoc (param b) (location_search p)) (Some [])))).

Definition setInputValue (b : Buscador) (q : str) : M page unit :=
  fun p => match search_input p (inputSelector b) with
           | BadSelector =>
               (inl (SyntaxError (txt "The string is not a valid selector")), p)
           | NoInput => (inr tt, p)
           | Input i => (inr tt, set_value_of i q p)
           | Inside path =>
               (inr tt, set_resultsEl (set_value_at path q <$> resultsEl p) p)
           end.

(** [fetch(f).then(r => r.text()).catch(() => '')] for each file, then
    [Promise.all]: the slots are in the order of [files]. *)
Definition fetchFiles (b : Buscador) : M page (list str) :=
  mapM (fun f =>
          try_catch
            (do r <- lift_env (fetch f);
             match text r with
             | Some body => ret body
             | None => throw (TypeError (txt "Failed to read the body"))
             end)
            (fun _ => ret []))
       (files b).

Definition e_acute : ascii := ascii_of_nat 233.
Definition u_acute : ascii := ascii_of_nat 250.

Definition msg_empty_query : str :=
  txt "Introduce un t" ++ e_acute :: txt "rmino de b" ++ u_acute ::
  txt "squeda en el campo superior.".

Definition msg_no_results : str := txt "No se han encontrado coincidencias.".

Definition paragraph (s : str) : node :=
  set_textContent s (createElement (txt "p")).

Definition on_resultsEl (f : node -> node) : M page unit :=
  modify (fun p => set_resultsEl (f <$> resultsEl p) p).

Definition clearResultsEl : M page unit :=
  on_resultsEl (fun el =>
    let h2 := querySelector (txt "h2") el in
    let emptied := set_children [] el in
    match h2 with
    | Some h => set_children (h :: kids emptied) emptied
    | None => emptied
    end).

Definition console_error (m : str) (x : exn) : M page unit :=
  lift_env (I18n.console_error m x).

(** [try { await this.search(); } catch (e) { ... }] of the script
    that the pages load (the class with the [init] method), for any
    behaviour of the guarded call. *)
Definition run_guard (guarded : M page unit) : M page unit :=
  try_catch guarded (fun e => console_error (txt "Buscador error:") e).

Definition msg_error : str := txt "<p>Error al buscar. Revisa la consola.</p>".

Section WithRuntime.

Variable rt : runtime.

(** [(window.i18n && typeof window.i18n.t === 'function') ? window.i18n.t(key) : fallback],
    converted to the string that [p.textContent = text] writes, which
    throws when the translation is an object that has no string. *)
Definition message (key fallback : str) : M page str :=
  do p <- get;
  match window_i18n p with
  | Some o => do v <- of_sum (t rt o key); of_sum (dom_convert v)
  | None => ret fallback
  end.

Definition renderNoQuery : M page unit :=
  do p <- get;
  match resultsEl p with
  | Some _ =>
      do s <- message (txt "search.empty_query") msg_empty_query;
      on_resultsEl (appendChild (paragraph s))
  | None => ret tt
  end.

Definition renderNoResults : M page unit :=
  do p <- get;
  match resultsEl p with
  | Some _ =>
      seq clearResultsEl;
      do s <- message (txt "search.no_results") msg_no_results;
      on_resultsEl (appendChild (paragraph s))
  | None => ret tt
  end.

Definition article (r : result) : node :=
  let name := dom_string (JStr <$> file r) in
  let a := set_textContent name
             (setAttribute (txt "href") name (createElement (txt "a"))) in
  let h3 := appendChild a (createElement (txt "h3")) in
  let p := set_children (parseHTML rt (txt "..." ++ snippet r ++ txt "..."))
             (createElement (txt "p")) in
  appendChild p
    (appendChild h3
       (setAttribute (txt "data-result") (txt "true") (createElement (txt "article")))).

Definition renderResults (results : list result) : M page unit :=
  do p <- get;
  match resultsEl p with
  | None => ret tt
  | Some _ =>
      seq clearResultsEl;
      seq mapM (fun r => on_resultsEl (appendChild (article r))) results;
      ret tt
  end.

(** The text the search looks at.  The page is parsed, the whole
    document is translated when [window.i18n] exists, inside a [try]
    whose [catch] is empty, so the document stays as the translation
    left it when it threw, and the text is that of the body of the
    document, or the text of the page for a document without body. *)
Definition plain_text (o : option I18n) (text : str) : str :=
  let doc := parseFromString rt text in
  let doc1 := match o with
              | Some i => fst (translate_run rt i doc)
              | None => doc
              end in
  match body doc1 with
  | Some b => textContent b
  | None => text
  end.

(** The body of [texts.forEach((text, i) => ...)]: the result pushed
    for one page, if any. *)
Definition scan_page (o : option I18n) (q : str) (f : option str) (text : str)
  : exn + option result :=
  match text with
  | [] => inr None
  | _ :: _ =>
      let plain := plain_text o text in
      let idx := indexOf (toLowerCase rt plain) (toLowerCase rt q) in
      if idx =? -1 then inr None
      else
        let start := Z.max 0 (idx - 80) in
        let end_ := Z.min (strlen plain) (idx + 80) in
        let snip := trim (substring plain start end_) in
        match new_RegExp ("("%char :: escapeRegExp q ++ [")"%char]) (txt "ig") with
        | Some regex =>
            inr (Some {| file := f;
                         snippet := replace (canonicalize (toUpperCase rt)) snip regex
                                            (txt "<mark>$1</mark>") |})
        | None => inl (SyntaxError (txt "Invalid regular expression"))
        end
  end.

Fixpoint scan_from (o : option I18n) (q : str) (fs : list str) (i : nat)
         (texts : list str) : exn + list result :=
  match texts with
  | [] => inr []
  | text :: texts' =>
      match scan_page o q (fs !! i) text with
      | inl e => inl e
      | inr r =>
          match scan_from o q fs (S i) texts' with
          | inl e => inl e
          | inr rs => inr (match r with Some x => x :: rs | None => rs end)
          end
      end
  end.

Definition search (b : Buscador) : M page unit :=
  do q <- getQuery b;
  seq setInputValue b q;
  match q with
  | [] => renderNoQuery
  | _ :: _ =>
      do p <- get;
      let lang := match window_i18n p with
                  | Some o => match currentLanguage o with
                              | [] => None
                              | c :: l => Some (c :: l)
                              end
                  | None => None
                  end in
      seq match lang with
          | Some l => try_catch (lift_i18n (loadTranslations rt l)) (fun _ => ret tt)
          | None => ret tt
          end;
      do texts <- fetchFiles b;
      do p1 <- get;
      do results <- of_sum (scan_from (window_i18n p1) q (files b) 0 texts);
      match results with
      | [] => renderNoResults
      | _ :: _ => renderResults results
      end
  end.

Definition run (b : Buscador) : M page unit := run_guard (search b).

(** The same guard in the second definition of the class, the ES
    module. *)
Definition run_module_guard (guarded : M page unit) : M page unit :=
  try_catch guarded
    (fun e =>
       seq console_error (txt "Buscador error:") e;
       on_resultsEl (set_children (parseHTML rt msg_error))).

Definition run_module (b : Buscador) : M page unit :=
  run_module_guard (search b).

End WithRuntime.

End Buscador.
Import Buscador.

(** ** The language selector (the class [LanguageSelector])

    The click listeners of the buttons are not part of the tree. *)

Module LanguageSelector.

Record LanguageSelector := {
  supportedLanguages : list str;
  currentLanguage : str
}.

(** [window.i18n?.currentLanguage || 'es'] *)
Definition constructor (window_i18n : option I18n) : LanguageSelector :=
  {| supportedLanguages := [txt "es"; txt "en"];
     currentLanguage :=
       match window_i18n with
       | Some o => match I18n.currentLanguage o with
                   | [] => txt "es"
                   | c :: l => c :: l
                   end
       | None => txt "es"
       end |}.

Definition set_currentLanguage (lang : str) (this : LanguageSelector)
  : LanguageSelector :=
  {| supportedLanguages := supportedLanguages this; currentLanguage := lang |}.

Definition pressed (b : bool) : str := if b then txt "true" else txt "false".

(** [document.querySelectorAll('[data-lang]')] and the [forEach] of
    [updateButtonStates], over the whole tree. *)
Fixpoint updateButtonStates (lang : str) (n : node) : node :=
  match n with
  | TextNode _ => n
  | Element tg attrs v ks =>
      let n1 := Element tg attrs v (map (updateButtonStates lang) ks) in
      match getAttribute (txt "data-lang") n with
      | Some l => setAttribute (txt "aria-pressed") (pressed (bool_decide (l = lang))) n1
      | None => n1
      end
  end.

(** [container.insertBefore(selector, container.firstChild)] *)
Definition insertFirst (c : node) (container : node) : node :=
  set_children (c :: kids container) container.

Section WithEngine.

(** [String.prototype.toUpperCase] of the engine. *)
Variable toUpperCase : str -> str.

(** The body of the [forEach] of [createSelector]. *)
Definition button (this : LanguageSelector) (lang : str) : node :=
  setAttribute (txt "aria-pressed") (pressed (bool_decide (lang = currentLanguage this)))
    (setAttribute (txt "type") (txt "button")
       (set_textContent (toUpperCase lang)
          (setAttribute (txt "data-lang") lang (createElement (txt "button"))))).

Definition createSelector (this : LanguageSelector) : node :=
  foldl (fun selector lang => appendChild (button this lang) selector)
        (setAttribute (txt "aria-label") (txt "Seleccionar idioma")
                      (createElement (txt "aside")))
        (supportedLanguages this).

Definition mount (this : LanguageSelector) (container : node) : node :=
  insertFirst (createSelector this) container.

End WithEngine.

(** [switchLanguage(lang)]: nothing happens without [window.i18n]; with
    it, the result of [window.i18n.switchLanguage] is not looked at. *)
Definition switchLanguage (rt : runtime) (this : LanguageSelector) (lang : str)
           (document : node) (w : env * option I18n)
  : (exn + LanguageSelector * node) * (env * option I18n) :=
  match w with
  | (e, Some o) =>
      match I18n.switchLanguage rt lang document (e, o) with
      | (inr (_, d), (e1, o1)) =>
          (inr (set_currentLanguage lang this, updateButtonStates lang d), (e1, Some o1))
      | (inl x, (e1, o1)) => (inl x, (e1, Some o1))
      end
  | (e, None) => (inr (this, document), (e, None))
  end.

End LanguageSelector.

(** ** Properties stated in the words of the specification *)

Module Spec.

Section Paths.

Variable rt : runtime.

(** The table that [t] walks: the one cached for the current language,
    or the empty object. *)
Definition start (o : I18n) : jsval :=
  or_else (table_of rt o (currentLanguage o)) (Some (JObj ∅)).

(** The dot-path [keys] resolves from [v]: every segment names a
    property of the value reached, whatever that value is.  [inr None]:
    a segment names no property ([null] and [undefined] have none);
    [inl e]: reading a segment throws [e]. *)
Fixpoint resolve (v : jsval) (keys : list str) : exn + option jsval :=
  match keys with
  | [] => inr (Some v)
  | k :: ks =>
      match v with
      | None | Some JNull => inr None
      | Some _ =>
          match get_prop (proto rt) v k with
          | inl e => inl e
          | inr (Some j) => resolve (Some j) ks
          | inr None => inr None
          end
      end
  end.

(** Every segment of [keys] resolves to a truthy value. *)
Fixpoint follow (v : jsval) (keys : list str) : option jsval :=
  match keys with
  | [] => Some v
  | k :: ks =>
      match get_prop (proto rt) v k with
      | inr (Some j) => if truthy (Some j) then follow (Some j) ks else None
      | _ => None
      end
  end.

End Paths.

Definition supported (o : I18n) : Prop := currentLanguage o ∈ supportedLanguages o.

(** The slot of [fetchFiles] for a file, as the code fills it. *)
Definition slot (n : str -> fetched) (f : str) : str :=
  match n f with
  | NetworkError => []
  | Fulfilled r => default [] (text r)
  end.

Definition requested (fs : list str) (e : env) : env :=
  foldl (fun e f => log_request f e) e fs.

(** The fetch of a resource fails: a network error, a response that is
    not ok, or a body that cannot be read. *)
Definition load_fails (e : env) (lang : str) : Prop :=
  match net e (translation_url lang) with
  | NetworkError => True
  | Fulfilled r => ok r = false ∨ json_body r = None
  end.

(** The members of the class of [escapeRegExp]. *)
Definition metachar_items : list citem :=
  [CChar "."; CChar "*"; CChar "+"; CChar "?"; CChar "^"; CChar "$"; CChar "{";
   CChar "}"; CChar "("; CChar ")"; CChar "|"; CChar "["; CChar "]"; CChar "\"]%char.

(** The regex metacharacters. *)
Definition is_meta (c : ascii) : bool := bool_decide (c ∈ txt ".*+?^${}()|[]\").

(** The query with a backslash before each metacharacter. *)
Definition escape_units (q : str) : str :=
  flat_map (fun c => if is_meta c then ["\"%char; c] else [c]) q.

(** The pattern that is the units of [q], one after the other. *)
Definition lits (q : str) : regex := foldr (fun c r => RSeq (RChar c) r) REmpty q.

(** Group 1 around the units of [q], with the flags [ig]. *)
Definition search_regex (q : str) : RegExp :=
  {| source := RSeq (RGroup 1 (lits q)) REmpty;
     rflags := {| ignoreCase := true; global := true |} |}.

Definition mark (m : str) : str := txt "<mark>" ++ m ++ txt "</mark>".

(** The window of the snippet around the index [i]: from
    [max(0, i - 80)] to [min(length, i + 80)], trimmed. *)
Definition window_of (plain : str) (i : nat) : str :=
  trim (take (Nat.min (length plain) (i + 80) - (i - 80)) (drop (i - 80) plain)).

(** The lower case of [q] is in the lower case of [plain] at index [j]:
    what [indexOf] looks for. *)
Definition found_at (rt : runtime) (q plain : str) (j : nat) : Prop :=
  take (length (toLowerCase rt q)) (drop j (toLowerCase rt plain)) = toLowerCase rt q.

(** The page has a case-insensitive occurrence of the query, as the
    search takes it. *)
Definition has_occurrence (rt : runtime) (q plain : str) : Prop :=
  ∃ j, found_at rt q plain j.

Section Folding.

(** The canonical form of a unit under the [i] flag of the RegExp. *)
Variable fold : ascii -> ascii.

(** [w] starts with the units of [q], compared as the RegExp flags say. *)
Fixpoint matches_here (ic : bool) (q w : str) : bool :=
  match q, w with
  | [], _ => true
  | c :: q', a :: w' => (unit_eq fold ic a c && matches_here ic q' w')%bool
  | _ :: _, [] => false
  end.

(** An occurrence of [q] at index [i] of [w], case apart as the [i]
    flag takes it: unit by unit, the canonical forms are the same. *)
Definition occurs_at (q w : str) (i : nat) : Prop :=
  map fold (take (length q) (drop i w)) = map fold q.

(** The literal highlighting of the specification: scan [w] from the
    left; where the query occurs, wrap the text found there and go on
    after it; elsewhere copy the unit. *)
Equations highlight_literal (q w : str) : str by wf (length w) lt :=
  highlight_literal [] w := w;
  highlight_literal (a :: q) [] := [];
  highlight_literal (a :: q) (c :: w) :=
    if matches_here true (a :: q) (c :: w)
    then mark (c :: take (length q) w) ++ highlight_literal (a :: q) (drop (length q) w)
    else c :: highlight_literal (a :: q) w.
Next Obligation. intros. simpl. rewrite length_drop. lia. Qed.




End Folding.


End Spec.
Import Spec.

(** ** Sample inputs *)

Module Samples.

Definition offline : str -> fetched := fun _ => NetworkError.

Definition browser (stored : option str) (locale : str) (n : str -> fetched) : env :=
  {| net := n; requests := []; console := [];
     localStorage := match stored with
                     | Some l => {[ txt "language" := l ]}
                     | None => ∅
                     end;
     navigator_language := locale; document_lang := [] |}.

Definition store (lang : str) (table : json) : I18n :=
  {| currentLanguage := lang; translations := {[ lang := table ]};
     supportedLanguages := [txt "es"; txt "en"] |}.

(** [{ "search": { "empty_query": "Escribe algo", "hint": "" } }] *)
Definition es_table : json :=
  JObj {[ txt "search" :=
            JObj (<[ txt "hint" := JStr [] ]>
                    {[ txt "empty_query" := JStr (txt "Escribe algo") ]}) ]}.

Definition es_store : I18n := store (txt "es") es_table.

(** [{ "search": { "no_results": { "toString": "x" } } }]: the
    translation of a message is an object that has no string. *)
Definition odd_table : json :=
  JObj {[ txt "search" :=
            JObj {[ txt "no_results" := JObj {[ txt "toString" := JStr (txt "x") ]} ]} ]}.

Definition odd_store : I18n := store (txt "es") odd_table.

(** Stand-ins for the HTML parser: the markup is kept as one text
    node, and the document of a page has a body with that text. *)
Definition as_text : str -> list node := fun s => [TextNode s].

Definition as_document : str -> node :=
  fun s => Element (txt "#document") [] []
             [Element (txt "HTML") [] []
                [Element (txt "HEAD") [] [] [];
                 Element (txt "BODY") [] [] [TextNode s]]].

(** Members of [Object.prototype], which every value but [null] and
    [undefined] inherits. *)
Definition object_prototype : json -> str -> jsval :=
  fun _ k =>
    if bool_decide (k ∈ [txt "constructor"; txt "toString"; txt "valueOf";
                         txt "hasOwnProperty"; txt "isPrototypeOf";
                         txt "propertyIsEnumerable"; txt "toLocaleString"])
    then Some (JNative k) else None.

(** Stand-ins for the case mappings, right on ASCII and Latin-1 text.
    [toLowerCase] takes A-Z and the capitals U+00C0-U+00DE, without
    U+00D7, to their lower case.  [toUpperCase] does the converse, takes
    U+00DF to [SS], and leaves U+00B5 and U+00FF, whose upper case is
    not a Latin-1 unit, as they are: no other unit has their canonical
    form, in the stand-in as in an engine. *)
Definition lower_unit (c : ascii) : ascii :=
  if (unit_in 65 90 c || (unit_in 192 222 c && negb (unit_in 215 215 c)))%bool
  then ascii_of_nat (nat_of_ascii c + 32) else c.

Definition upper_unit (c : ascii) : str :=
  if (unit_in 97 122 c || (unit_in 224 254 c && negb (unit_in 247 247 c)))%bool
  then [ascii_of_nat (nat_of_ascii c - 32)]
  else if unit_in 223 223 c then txt "SS" else [c].

(** The names that [setAttribute] accepts: not empty, and without ASCII
    white space, NUL, [/], [=] and [>]. *)
Definition valid_attribute_name (k : str) : bool :=
  (negb (Nat.eqb (length k) 0)
   && forallb (fun c => negb (unit_in 9 10 c || unit_in 12 13 c || unit_in 32 32 c
                              || unit_in 0 0 c || unit_in 47 47 c || unit_in 61 62 c)) k)%bool.

Definition engine : runtime :=
  {| proto := object_prototype;
     toLowerCase := map lower_unit; toUpperCase := flat_map upper_unit;
     valid_name := valid_attribute_name;
     parseHTML := as_text; parseFromString := as_document |}.

(** The sample engine with a parser that builds the given document,
    whatever the text is. *)
Definition engine_parsing (doc : node) : runtime :=
  {| proto := object_prototype;
     toLowerCase := map lower_unit; toUpperCase := flat_map upper_unit;
     valid_name := valid_attribute_name;
     parseHTML := as_text; parseFromString := fun _ => doc |}.

(** A document whose body has two marked paragraphs. *)
Definition two_paragraphs (first second : node) : node :=
  Element (txt "#document") [] []
    [Element (txt "HTML") [] []
       [Element (txt "HEAD") [] [] [];
        Element (txt "BODY") [] [] [first; second]]].

(** [<p data-i18n="search.empty_query">...</p>] *)
Definition translated_paragraph (s : str) : node :=
  Element (txt "P") [(txt "data-i18n", txt "search.empty_query")] [] [TextNode s].

(** [<p data-i18n="search.empty_query" data-i18n-attr="">...</p>]: the
    name of the attribute to set is empty. *)
Definition broken_paragraph (s : str) : node :=
  Element (txt "P") [(txt "data-i18n", txt "search.empty_query");
                     (txt "data-i18n-attr", [])] [] [TextNode s].

Definition served (body : str) : fetched :=
  Fulfilled {| ok := true; text := Some body; json_body := None |}.

Definition not_found : fetched :=
  Fulfilled {| ok := false; text := Some (txt "<h1>404 Not Found</h1>");
               json_body := None |}.

(** A site with one page, one address that answers 404 and nothing
    else. *)
Definition site : str -> fetched :=
  fun u => if decide (u = txt "index.html") then served (txt "<p>Hola mundo</p>")
           else if decide (u = txt "roto.html") then not_found
           else NetworkError.

Definition heading : node :=
  Element (txt "H2") [] [] [TextNode (txt "Resultados")].

Definition old_article : node :=
  Element (txt "ARTICLE") [(txt "data-result", txt "true")] []
          [TextNode (txt "index.html")].

Definition section_with (ks : list node) : node :=
  Element (txt "SECTION") [] [] ks.

(** A page with one search input; [input[] is not a selector. *)
Definition a_page (n : str -> fetched) (query : str) (el : option node) : page :=
  {| penv := browser None (txt "es") n; window_i18n := None; resultsEl := el;
     location_search := [(txt "q", query)];
     search_input := fun sel =>
       if decide (sel = txt "input[") then BadSelector
       else if decide (sel = txt "form[role=search] input[name=q]") then Input 0
       else NoInput;
     input_value := fun _ => [] |}.

(** [<input name="q" value=...>] *)
Definition search_box (v : str) : node :=
  Element (txt "INPUT") [(txt "name", txt "q")] v [].

(** A page whose search input is the second child of the results
    container. *)
Definition a_page_with_input_inside (n : str -> fetched) (query : str) : page :=
  {| penv := browser None (txt "es") n; window_i18n := None;
     resultsEl := Some (section_with [heading; search_box (txt "viejo")]);
     location_search := [(txt "q", query)];
     search_input := fun sel =>
       if decide (sel = txt "form[role=search] input[name=q]") then Inside [1%nat]
       else NoInput;
     input_value := fun _ => [] |}.

Definition a_buscador (fs : list str) : Buscador :=
  {| files := fs; param := txt "q";
     inputSelector := txt "form[role=search] input[name=q]" |}.

Definition a_buscador_bad_selector (fs : list str) : Buscador :=
  {| files := fs; param := txt "q"; inputSelector := txt "input[" |}.

End Samples.
Import Samples.

(** ** Further properties in the words of the code *)

Module More.

(** No element of the tree carries [data-i18n]. *)
Fixpoint unmarked (n : node) : bool :=
  match n with
  | TextNode _ => true
  | Element _ attrs _ ks =>
      (negb (bool_decide (is_Some (assoc (txt "data-i18n") attrs))) && forallb unmarked ks)%bool
  end.

(** The store after [setLanguage] was called with each code of [langs],
    in order. *)
Definition after_setLanguages (langs : list str) (w : env * I18n) : env * I18n :=
  foldl (fun w lang => snd (setLanguage lang w)) w langs.

(** The text with the backslashes of [escapeRegExp] taken off. *)
Fixpoint unescape (s : str) : str :=
  match s with
  | [] => []
  | c :: s1 =>
      if Ascii.eqb c "\" then
        match s1 with
        | d :: s2 => d :: unescape s2
        | [] => [c]
        end
      else c :: unescape s1
  end.

End More.
Import More.

(** * Theorems *)

(** ** Strings *)

Lemma split_not_nil sep s : split sep s ≠ [].
Proof.
  destruct s as [|c s]; simpl; [discriminate|].
  destruct (Ascii.eqb c sep); [discriminate|].
  destruct (split sep s); discriminate.
Qed.

(** ** The translation store *)

Section Store.

Variable rt : runtime.

Lemma start_truthy o : truthy (start rt o) = true.
Proof.
  unfold start, or_else.
  by destruct (truthy (table_of rt o (currentLanguage o))) eqn:Ht.
Qed.

(** Reading a property of a truthy value throws only for [caller] and
    [arguments]. *)
Lemma get_prop_truthy obj k :
  truthy obj = true → restricted k = false →
  ∃ v, get_prop (proto rt) obj k = inr v.
Proof.
  destruct obj as [[| b | z | s | l | m | n]|]; simpl; intros H Hk;
    try discriminate; try rewrite Hk; eauto.
Qed.

(** What [t] returns is the key or a truthy value. *)
Lemma walk_value key ks : ∀ obj v,
  truthy obj = true → walk rt key obj ks = inr v →
  ∃ j, v = Some j ∧ (j = JStr key ∨ truthy (Some j) = true).
Proof.
  induction ks as [|k ks IH]; intros obj v Ht Hw; cbn [walk] in Hw.
  - injection Hw as <-. destruct obj as [j|]; [|discriminate]. exists j. by split; [|right].
  - destruct (get_prop (proto rt) obj k) as [e|x]; [discriminate|].
    destruct (truthy x) eqn:Hx; [by apply (IH x)|].
    injection Hw as <-. exists (JStr key). by split; [|left].
Qed.

(** With no segment named [caller] or [arguments], [t] returns. *)
Lemma walk_returns key ks : ∀ obj,
  truthy obj = true → Forall (fun k => restricted k = false) ks →
  ∃ v, walk rt key obj ks = inr (Some v) ∧ (v = JStr key ∨ truthy (Some v) = true).
Proof.
  induction ks as [|k ks IH]; intros obj Ht Hks.
  - destruct obj as [j|]; [|discriminate]. exists j. split; [done|by right].
  - inversion Hks as [|? ? Hk Hks']; subst.
    cbn [walk]. destruct (get_prop_truthy obj k Ht Hk) as [v ->].
    destruct (truthy v) eqn:Hv; [by apply IH|].
    exists (JStr key). split; [done|by left].
Qed.

(** A segment that names no property gives the key back. *)
Lemma walk_missing key ks : ∀ obj,
  truthy obj = true → resolve rt obj ks = inr None →
  walk rt key obj ks = inr (Some (JStr key)).
Proof.
  induction ks as [|k ks IH]; intros obj Ht Hr; [discriminate|].
  cbn [walk resolve] in *.
  destruct obj as [j|]; [|discriminate].
  destruct (get_prop (proto rt) (Some j) k) as [e|[j'|]] eqn:Hg.
  - destruct j; try discriminate.
  - destruct j; try discriminate;
      (destruct (truthy (Some j')) eqn:Hj; [by apply IH|reflexivity]).
  - reflexivity.
Qed.

(** A path of truthy values gives the value at its end. *)
Lemma walk_follow key ks : ∀ obj r,
  follow rt obj ks = Some r → walk rt key obj ks = inr r.
Proof.
  induction ks as [|k ks IH]; intros obj r Hf; cbn [walk follow] in *.
  - by inversion Hf.
  - destruct (get_prop (proto rt) obj k) as [e|[j|]]; try discriminate.
    destruct (truthy (Some j)); [by apply IH|discriminate].
Qed.

(** A path that ends on a falsy value gives the key back. *)
Lemma walk_falsy key ks : ∀ obj r,
  ks ≠ [] → resolve rt obj ks = inr (Some r) → truthy r = false →
  walk rt key obj ks = inr (Some (JStr key)).
Proof.
  induction ks as [|k ks IH]; intros obj r Hne Hr Hf; [done|].
  cbn [walk resolve] in *.
  destruct obj as [j|]; [|discriminate].
  assert (match get_prop (proto rt) (Some j) k with
          | inl e => inl e
          | inr (Some j0) => resolve rt (Some j0) ks
          | inr None => inr None
          end = inr (Some r)) as Hr'.
  { destruct j; try discriminate; exact Hr. }
  clear Hr. destruct (get_prop (proto rt) (Some j) k) as [e|[j'|]]; try discriminate.
  destruct (truthy (Some j')) eqn:Hj; [|reflexivity].
  destruct ks as [|k' ks'].
  - cbn [resolve] in Hr'. inversion Hr'; subst. congruence.
  - by apply (IH _ r).
Qed.

(** When [t] throws, a read of the path throws. *)
Lemma walk_throws key ks : ∀ obj e,
  truthy obj = true → walk rt key obj ks = inl e → resolve rt obj ks = inl e.
Proof.
  induction ks as [|k ks IH]; intros obj e Ht Hw; [discriminate|].
  cbn [walk resolve] in *.
  destruct obj as [j|]; [|discriminate].
  assert (match get_prop (proto rt) (Some j) k with
          | inl e => inl e
          | inr (Some j0) => resolve rt (Some j0) ks
          | inr None => inr None
          end = inl e) as Hr; [|destruct j; try done; simpl in Ht; discriminate].
  destruct (get_prop (proto rt) (Some j) k) as [e'|[j'|]]; [congruence| |discriminate].
  destruct (truthy (Some j')) eqn:Hj; [by apply IH|discriminate].
Qed.

Lemma t_returns o key :
  Forall (fun k => restricted k = false) (split "." key) →
  ∃ v, t rt o key = inr (Some v) ∧ (v = JStr key ∨ truthy (Some v) = true).
Proof. apply walk_returns, start_truthy. Qed.

(** C5, amended: whenever [t] returns, it returns the key or a truthy
    value, never [null] or [undefined].  When a segment of the key names
    no property of the value reached (in the cached table, or in the
    empty object when no table is cached) it returns the key; when every
    segment resolves to a truthy value it returns the value at the end of
    the path, which is the translation when the key names a leaf and a
    nested table when it names an inner node.  It throws only when a read
    of the path throws, which a read of [caller] or [arguments] on a
    built-in function does, and never for a key without such a
    segment. *)
Theorem t_returns_key_or_truthy_value (o : I18n) (key : str) :
  (∀ v, t rt o key = inr v →
        ∃ j, v = Some j ∧ j ≠ JNull ∧ (j = JStr key ∨ truthy v = true))
  ∧ (resolve rt (start rt o) (split "." key) = inr None →
     t rt o key = inr (Some (JStr key)))
  ∧ (∀ r, follow rt (start rt o) (split "." key) = Some r → t rt o key = inr r)
  ∧ (∀ e, t rt o key = inl e → resolve rt (start rt o) (split "." key) = inl e)
  ∧ (Forall (fun k => restricted k = false) (split "." key) →
     ∃ j, t rt o key = inr (Some j)).
Proof.
  unfold t. fold (start rt o). split; [|split; [|split; [|split]]].
  - intros v Hv.
    destruct (walk_value _ _ _ _ (start_truthy o) Hv) as (j & -> & Hj).
    exists j. split; [done|]. split; [|done].
    intros ->. destruct Hj as [Hj|Hj]; discriminate.
  - apply walk_missing, start_truthy.
  - intros r. apply walk_follow.
  - intros e. apply walk_throws, start_truthy.
  - intros Hk. destruct (walk_returns key _ _ (start_truthy o) Hk) as (j & Hj & _).
    by exists j.
Qed.

(** C10: a key whose path resolves in the cached table to a falsy value
    (the empty string in particular) gets the key back, which is what a
    key with a missing segment gets in any store. *)
Theorem t_falsy_translation_returns_key
        (o : I18n) (key : str) (table : gmap (list ascii) json) (r : jsval) :
  translations o !! currentLanguage o = Some (JObj table) →
  resolve rt (Some (JObj table)) (split "." key) = inr (Some r) →
  truthy r = false →
  t rt o key = inr (Some (JStr key))
  ∧ ∀ o', resolve rt (start rt o') (split "." key) = inr None → t rt o' key = t rt o key.
Proof.
  intros Hc Hr Hf.
  assert (t rt o key = inr (Some (JStr key))) as Ht.
  { unfold t, table_of, prop. cbn [own]. rewrite Hc. unfold or_else. cbn [truthy].
    apply (walk_falsy _ _ _ r); [apply split_not_nil|done|done]. }
  split; [done|]. intros o' Hmiss. rewrite Ht. unfold t. fold (start rt o').
  by apply walk_missing; [apply start_truthy|].
Qed.

End Store.

(** C5, as stated, fails.  The key of an inner node of the table
    resolves, and [t] returns the nested table, not a string; and with no
    table cached, the key [constructor] has no translation, yet [t]
    returns the function that every object inherits under that name, not
    the key. *)
Lemma t_returns_nested_table :
  (follow engine (start engine es_store) (split "." (txt "search")) ≠ None ∧
   ¬ ∃ s, t engine es_store (txt "search") = inr (Some (JStr s)))
  ∧ (translations (constructor (browser None (txt "es") offline)) = ∅ ∧
     t engine (constructor (browser None (txt "es") offline)) (txt "constructor")
     = inr (Some (JNative (txt "constructor")))).
Proof.
  split; [split|split].
  - by vm_compute.
  - intros [s H]. vm_compute in H. discriminate.
  - reflexivity.
  - by vm_compute.
Qed.

(** And [t] can throw: with no table cached, the key [constructor.caller]
    reads the [caller] of the function that every object inherits as
    [constructor]. *)
Lemma t_throws_on_restricted_accessor :
  ∃ e, t engine (constructor (browser None (txt "es") offline)) (txt "constructor.caller")
       = inl e.
Proof. eexists. by vm_compute. Qed.

(** On the sample store: a leaf gives its translation, a missing key
    gives the key. *)
Lemma t_returns_key_or_truthy_value_witness :
  t engine es_store (txt "search.empty_query") = inr (Some (JStr (txt "Escribe algo"))) ∧
  t engine es_store (txt "search.missing") = inr (Some (JStr (txt "search.missing"))).
Proof.
  split.
  - destruct (t_returns_key_or_truthy_value engine es_store (txt "search.empty_query"))
      as (_ & _ & Hv & _).
    apply Hv. vm_compute. reflexivity.
  - destruct (t_returns_key_or_truthy_value engine es_store (txt "search.missing"))
      as (_ & Hv & _).
    apply Hv. vm_compute. reflexivity.
Defined.

(** On the sample store: the empty translation of [search.hint] gives
    the key, as the store with no table does. *)
Lemma t_falsy_translation_returns_key_witness :
  t engine es_store (txt "search.hint") = inr (Some (JStr (txt "search.hint"))) ∧
  t engine (constructor (browser None (txt "es") offline)) (txt "search.hint")
  = t engine es_store (txt "search.hint").
Proof.
  destruct (t_falsy_translation_returns_key engine es_store (txt "search.hint")
              {[ txt "search" :=
                   JObj (<[ txt "hint" := JStr [] ]>
                           {[ txt "empty_query" := JStr (txt "Escribe algo") ]}) ]}
              (Some (JStr []))) as [Ht Hsame].
  - vm_compute. reflexivity.
  - vm_compute. reflexivity.
  - reflexivity.
  - split; [exact Ht|]. apply Hsame. vm_compute. reflexivity.
Defined.
(** The constructor takes the stored preference when there is one, else
    the language of the locale, else ['es']; it never consults
    [supportedLanguages]. *)
Lemma constructor_language (e : env) :
  currentLanguage (constructor e) =
    match localStorage e !! txt "language" with
    | Some (c :: l) => c :: l
    | _ => match split "-" (navigator_language e) with
           | (c :: l) :: _ => c :: l
           | _ => txt "es"
           end
    end.
Proof.
  unfold constructor, getStoredLanguage, str_or. cbn [currentLanguage].
  generalize (localStorage e !! txt "language"), (split "-" (navigator_language e)).
  intros [[|c l]|] [|[|c' l'] ?]; reflexivity.
Qed.

(** C8 on the code: with no stored preference and the locale ['fr-FR'] the
    initial language is ['fr'], which is not supported, while [setLanguage]
    refuses that same code. *)
Theorem constructor_keeps_unsupported_locale :
  let e := browser None (txt "fr-FR") offline in
  currentLanguage (constructor e) = txt "fr" ∧
  ¬ supported (constructor e) ∧
  fst (setLanguage (txt "fr") (e, constructor e)) = inr false.
Proof.
  split; [by vm_compute|]. split; [|by vm_compute].
  unfold supported. simpl. rewrite !elem_of_cons, elem_of_nil.
  intros [H|[H|[]]]; vm_compute in H; discriminate.
Qed.

(** ** loadTranslations *)

Section Loading.

Variable rt : runtime.

Lemma loadTranslations_cached lang (e : env) (o : I18n) :
  truthy (table_of rt o lang) = true →
  loadTranslations rt lang (e, o) = (inr tt, (e, o)).
Proof. intros H. unfold loadTranslations, bind, this. simpl. by rewrite H. Qed.

Lemma loadTranslations_uncached lang (e : env) (o : I18n) :
  truthy (table_of rt o lang) = false →
  loadTranslations rt lang (e, o) =
    match net e (translation_url lang) with
    | Fulfilled r =>
        if ok r then
          match json_body r with
          | Some j => (inr tt, (log_request (translation_url lang) e,
                                set_translations lang j o))
          | None =>
              (inr tt,
               (log_error (txt "Error loading translations:" ++ " "%char ::
                             exn_text (SyntaxError (txt "Unexpected token in JSON")))
                          (log_request (translation_url lang) e),
                set_translations lang (JObj ∅) o))
          end
        else
          (inr tt,
           (log_error (txt "Error loading translations:" ++ " "%char ::
                         exn_text (Error (txt "Failed to load " ++ lang ++ txt ".json")))
                      (log_request (translation_url lang) e),
            set_translations lang (JObj ∅) o))
    | NetworkError =>
        (inr tt,
         (log_error (txt "Error loading translations:" ++ " "%char ::
                       exn_text (TypeError (txt "Failed to fetch")))
                    (log_request (translation_url lang) e),
          set_translations lang (JObj ∅) o))
    end.
Proof.
  intros H. unfold loadTranslations, bind, this, try_catch, on_env, fetch.
  simpl. rewrite H.
  destruct (net e (translation_url lang)) as [|r]; [reflexivity|].
  simpl. destruct (ok r); simpl; [|reflexivity].
  destruct (json_body r); reflexivity.
Qed.

(** C6, amended: [loadTranslations] never rejects; when the fetch fails
    it caches the empty table, with one request and one logged error,
    and the next call returns at once; with a truthy value cached for
    the code (a table, loaded or empty) it returns at once: no request,
    nothing logged, the store unchanged.  With a falsy value cached, as a
    resource whose JSON is [null] leaves it, it fetches again. *)
Theorem loadTranslations_degrades_and_is_idempotent (lang : str) (e : env) (o : I18n) :
  (∃ w, loadTranslations rt lang (e, o) = (inr tt, w)) ∧
  (truthy (table_of rt o lang) = false → load_fails e lang →
   ∃ e1, loadTranslations rt lang (e, o) = (inr tt, (e1, set_translations lang (JObj ∅) o))
         ∧ requests e1 = requests e ++ [translation_url lang]
         ∧ length (console e1) = S (length (console e))
         ∧ ∀ e2, loadTranslations rt lang (e2, set_translations lang (JObj ∅) o)
                 = (inr tt, (e2, set_translations lang (JObj ∅) o))) ∧
  (∀ j, translations o !! lang = Some j → truthy (Some j) = true →
        loadTranslations rt lang (e, o) = (inr tt, (e, o))) ∧
  (∀ w, loadTranslations rt lang (e, o) = (inr tt, w) →
        truthy (table_of rt (snd w) lang) = true →
        ∀ e2, loadTranslations rt lang (e2, snd w) = (inr tt, (e2, snd w))) ∧
  (∀ j, translations o !! lang = Some j → truthy (Some j) = false →
        ∃ e1 o1, loadTranslations rt lang (e, o) = (inr tt, (e1, o1))
                 ∧ requests e1 = requests e ++ [translation_url lang]).
Proof.
  assert (∀ j o0, translations o0 !! lang = Some j → table_of rt o0 lang = Some j) as Hown.
  { intros j o0 Hc. unfold table_of, prop. cbn [own]. by rewrite Hc. }
  split; [|split; [|split; [|split]]].
  - destruct (truthy (table_of rt o lang)) eqn:Ht.
    + rewrite loadTranslations_cached by done. eauto.
    + rewrite loadTranslations_uncached by done.
      destruct (net e (translation_url lang)) as [|r]; [eauto|].
      destruct (ok r); [|eauto]. destruct (json_body r); eauto.
  - intros Ht Hfail. rewrite loadTranslations_uncached by done.
    assert (∀ e2, loadTranslations rt lang (e2, set_translations lang (JObj ∅) o)
                  = (inr tt, (e2, set_translations lang (JObj ∅) o))) as Hagain.
    { intros e2. apply loadTranslations_cached.
      rewrite (Hown (JObj ∅)); [done|]. cbn [translations set_translations].
      apply lookup_insert_eq. }
    unfold load_fails in Hfail.
    destruct (net e (translation_url lang)) as [|r].
    + eexists; split; [reflexivity|]. simpl. rewrite length_app. simpl.
      split; [done|]. split; [lia|exact Hagain].
    + destruct Hfail as [Hok|Hbody].
      * rewrite Hok. eexists; split; [reflexivity|]. simpl. rewrite length_app. simpl.
        split; [done|]. split; [lia|exact Hagain].
      * rewrite Hbody. destruct (ok r);
          (eexists; split; [reflexivity|]; simpl; rewrite length_app; simpl;
           split; [done|]; split; [lia|exact Hagain]).
  - intros j Hc Hj. apply loadTranslations_cached. by rewrite (Hown j).
  - intros w _ Hc e2. by apply loadTranslations_cached.
  - intros j Hc Hj. rewrite loadTranslations_uncached by (by rewrite (Hown j)).
    destruct (net e (translation_url lang)) as [|r];
      [|destruct (ok r); [destruct (json_body r)|]];
      (eexists _, _; split; [reflexivity|done]).
Qed.

End Loading.

(** Offline: the first load caches the empty table with one request, the
    second load changes nothing. *)
Lemma loadTranslations_degrades_and_is_idempotent_witness :
  let e := browser None (txt "es") offline in
  let o := constructor e in
  ∃ e1, loadTranslations engine (txt "es") (e, o)
          = (inr tt, (e1, set_translations (txt "es") (JObj ∅) o))
        ∧ requests e1 = [txt "i18n/es.json"]
        ∧ loadTranslations engine (txt "es") (e1, set_translations (txt "es") (JObj ∅) o)
          = (inr tt, (e1, set_translations (txt "es") (JObj ∅) o)).
Proof.
  intros e o.
  destruct (loadTranslations_degrades_and_is_idempotent engine (txt "es") e o)
    as (_ & Hfail & _).
  destruct Hfail as (e1 & Hrun & Hreq & _ & Hagain); [by vm_compute | exact I |].
  exists e1. split; [exact Hrun|]. split; [exact Hreq|]. apply Hagain.
Defined.

(** C6, as stated, fails: a resource that is the JSON [null] is loaded
    and stored, yet the second call does not return at once: it fetches
    the resource again. *)
Lemma cached_null_is_fetched_again :
  let n := fun u : str => Fulfilled {| ok := true; text := None; json_body := Some JNull |} in
  let e := browser None (txt "es") n in
  let first := loadTranslations engine (txt "es") (e, constructor e) in
  let second := loadTranslations engine (txt "es") (snd first) in
  fst first = inr tt
  ∧ console (fst (snd first)) = []
  ∧ translations (snd (snd first)) !! txt "es" = Some JNull
  ∧ requests (fst (snd first)) = [txt "i18n/es.json"]
  ∧ requests (fst (snd second)) = [txt "i18n/es.json"; txt "i18n/es.json"].
Proof. by vm_compute. Qed.

(** ** fetchFiles *)

Lemma net_requested fs : ∀ e, net (requested fs e) = net e.
Proof. induction fs as [|f fs IH]; intros e; [done|]. simpl. by rewrite IH. Qed.

Lemma mapM_fetch fs : ∀ p,
  mapM (fun f =>
          try_catch
            (do r <- lift_env (fetch f);
             match text r with
             | Some body => ret body
             | None => throw (TypeError (txt "Failed to read the body"))
             end)
            (fun _ => ret [])) fs p
  = (inr (map (slot (net (penv p))) fs), set_penv (requested fs (penv p)) p).
Proof.
  induction fs as [|f fs IH]; intros p.
  - by destruct p.
  - cbn [mapM]. unfold bind at 1.
    assert (∀ q,
      try_catch
        (do r <- lift_env (fetch f);
         match text r with
         | Some body => ret body
         | None => throw (TypeError (txt "Failed to read the body"))
         end) (fun _ => ret []) q
      = (inr (slot (net (penv q)) f), set_penv (log_request f (penv q)) q)) as Hone.
    { intros q. unfold try_catch, bind, lift_env, fetch, slot.
      destruct (net (penv q) f) as [|r]; [reflexivity|].
      destruct (text r); reflexivity. }
    rewrite Hone. unfold bind at 1. rewrite IH. unfold bind, ret. simpl.
    reflexivity.
Qed.

(** [fetchFiles] never rejects and fills one slot per file, in order. *)
Lemma fetchFiles_slots b p :
  fetchFiles b p
  = (inr (map (slot (net (penv p))) (files b)), set_penv (requested (files b) (penv p)) p).
Proof. apply mapM_fetch. Qed.

(** C3 on the code: the slot of an address that answers 404 holds the
    body of the error page, not the empty string; only the network error
    gives the empty string. *)
Theorem fetchFiles_keeps_body_of_404 :
  let b := a_buscador [txt "index.html"; txt "roto.html"; txt "caido.html"] in
  fst (fetchFiles b (a_page site (txt "hola") None))
  = inr [txt "<p>Hola mundo</p>"; txt "<h1>404 Not Found</h1>"; []].
Proof. by vm_compute. Qed.

(** ** Rendering *)

Lemma clearResultsEl_children p el :
  resultsEl p = Some el →
  clearResultsEl p =
    (inr tt,
     set_resultsEl
       (Some (set_children (match querySelector (txt "h2") el with
                            | Some h => [h]
                            | None => []
                            end) el)) p).
Proof.
  intros H. unfold clearResultsEl, on_resultsEl, modify. rewrite H. simpl.
  destruct (querySelector (txt "h2") el); by destruct el.
Qed.

(** [renderNoResults] leaves the heading and the message, whatever was
    shown before. *)
Lemma renderNoResults_children rt p tg attrs v ks :
  let el := Element tg attrs v ks in
  resultsEl p = Some el → window_i18n p = None →
  ∃ p1, renderNoResults rt p = (inr tt, p1) ∧
        kids <$> resultsEl p1 =
          Some (match querySelector (txt "h2") el with
                | Some h => [h]
                | None => []
                end ++ [paragraph msg_no_results]).
Proof.
  intros el H Hi. unfold renderNoResults, bind at 1. unfold get. rewrite H.
  unfold bind at 1. rewrite (clearResultsEl_children _ _ H).
  unfold message, on_resultsEl, modify. unfold bind, get. simpl. rewrite Hi.
  unfold ret. eexists; split; reflexivity.
Qed.

(** C7 on the code: [renderNoQuery] clears nothing.  Over a container that
    shows an earlier result it keeps that result and appends its
    message, and a second call appends the message again. *)
Theorem renderNoQuery_accumulates :
  let p := a_page site [] (Some (section_with [heading; old_article])) in
  let once := snd (renderNoQuery engine p) in
  let twice := snd (renderNoQuery engine once) in
  kids <$> resultsEl once
    = Some [heading; old_article; paragraph msg_empty_query] ∧
  kids <$> resultsEl twice
    = Some [heading; old_article; paragraph msg_empty_query; paragraph msg_empty_query] ∧
  kids <$> resultsEl (snd (renderNoResults engine p))
    = Some [heading; paragraph msg_no_results].
Proof. by vm_compute. Qed.

(** ** The guard of run *)

(** Both guards catch whatever the guarded call throws. *)
Lemma run_guard_never_throws guarded p :
  ∃ p1, run_guard guarded p = (inr tt, p1).
Proof.
  unfold run_guard, try_catch. destruct (guarded p) as [[e|[]] p1]; eauto.
Qed.

Lemma run_module_guard_never_throws rt guarded p :
  ∃ p1, run_module_guard rt guarded p = (inr tt, p1).
Proof.
  unfold run_module_guard, try_catch. destruct (guarded p) as [[e|[]] p1]; eauto.
Qed.

(** The guard of the script logs and leaves the container as the failed
    call left it. *)
Lemma run_guard_only_logs guarded p e p1 :
  guarded p = (inl e, p1) →
  ∃ p2, run_guard guarded p = (inr tt, p2) ∧
        resultsEl p2 = resultsEl p1 ∧
        console (penv p2) = console (penv p1) ++
                            [txt "Buscador error:" ++ " "%char :: exn_text e].
Proof.
  intros H. unfold run_guard, try_catch. rewrite H.
  eexists; split; [reflexivity|]. by destruct p1.
Qed.

(** The guard of the module also shows the message. *)
Lemma run_module_guard_shows_message rt guarded p e p1 el :
  guarded p = (inl e, p1) → resultsEl p1 = Some el →
  ∃ p2, run_module_guard rt guarded p = (inr tt, p2) ∧
        resultsEl p2 = Some (set_children (parseHTML rt msg_error) el) ∧
        console (penv p2) = console (penv p1) ++
                            [txt "Buscador error:" ++ " "%char :: exn_text e].
Proof.
  intros H Hel. unfold run_module_guard, try_catch. rewrite H.
  eexists; split; [reflexivity|]. destruct p1; simpl in *. by rewrite Hel.
Qed.

(** C9 on the code: for a [Buscador] whose [inputSelector] is not a
    selector, [search] throws at [setInputValue]; [run] of the script
    catches and logs, and renders nothing: the container is as before.
    [run] of the module renders the message. *)
Theorem run_renders_no_error_message :
  let b := a_buscador_bad_selector [txt "index.html"] in
  let p := a_page site (txt "hola") (Some (section_with [heading])) in
  (∃ e, fst (search engine b p) = inl e) ∧
  fst (run engine b p) = inr tt ∧
  console (penv (snd (run engine b p)))
    = [txt "Buscador error: SyntaxError: The string is not a valid selector"] ∧
  resultsEl (snd (run engine b p)) = Some (section_with [heading]) ∧
  resultsEl (snd (run_module engine b p)) = Some (section_with [TextNode msg_error]).
Proof. split; [by eexists; vm_compute|]. by vm_compute. Qed.

(** ** escapeRegExp and the pattern of the search *)

Ltac each_unit c := destruct c as [[] [] [] [] [] [] [] []].

(** The RegExp literal of [escapeRegExp] is well formed: one class with
    the fourteen syntax characters. *)
Lemma metachars_parsed :
  new_RegExp metachars_source (txt "g") = Some metachars ∧
  metachars = {| source := RSeq (RSet false metachar_items) REmpty;
                 rflags := {| ignoreCase := false; global := true |} |}.
Proof. split; by vm_compute. Qed.

Lemma metachar_items_meta canon c : set_has canon false metachar_items c = is_meta c.
Proof. each_unit c; by vm_compute. Qed.

Lemma meta_escape_is_literal c : is_meta c = true → atom_escape c = Some (RChar c).
Proof. each_unit c; intros H; vm_compute in H |- *; first [discriminate | reflexivity]. Qed.

Lemma not_meta_is_literal c : is_meta c = false → classify c = TLit.
Proof. each_unit c; intros H; vm_compute in H |- *; first [discriminate | reflexivity]. Qed.

Lemma escape_scan canon s : ∀ p,
  replace_scan canon metachars (txt "\$&") p 0 s = escape_units s.
Proof.
  destruct metachars_parsed as [_ ->].
  induction s as [|c s IH]; intros p; [reflexivity|].
  cbn [replace_scan]. unfold match_at. cbn [rmatch source rflags ignoreCase].
  unfold one_unit. cbn [rest xorb]. rewrite metachar_items_meta.
  unfold escape_units. cbn [flat_map]. fold (escape_units s).
  destruct (is_meta c).
  - cbn [pos step]. replace (S p - p)%nat with 1%nat by lia.
    rewrite IH. reflexivity.
  - by rewrite IH.
Qed.

(** The case mapping of the engine plays no part in [escapeRegExp]. *)
Lemma escapeRegExp_any_engine canon s :
  replace canon s metachars (txt "\$&") = escape_units s.
Proof.
  unfold replace. destruct metachars_parsed as [_ Hm].
  rewrite Hm at 1. cbn [rflags global]. apply escape_scan.
Qed.

(** [escapeRegExp] puts a backslash before each metacharacter and copies
    the other units. *)
Lemma escapeRegExp_units s : escapeRegExp s = escape_units s.
Proof. apply escapeRegExp_any_engine. Qed.

Lemma escaped_head_not_quantifier q rest :
  parse_quant (escape_units q ++ ")"%char :: rest) = None.
Proof.
  destruct q as [|c q]; [reflexivity|].
  unfold escape_units. cbn [flat_map]. destruct (is_meta c) eqn:Hc.
  - reflexivity.
  - cbn [app parse_quant]. by rewrite (not_meta_is_literal c Hc).
Qed.

Lemma quantified_escaped r gi q rest :
  quantified r gi (escape_units q ++ ")"%char :: rest)
  = Some (r, gi, escape_units q ++ ")"%char :: rest).
Proof. unfold quantified. by rewrite escaped_head_not_quantifier. Qed.

Lemma parse_alt_S f gi s :
  parse_alt (S f) gi s =
    match s with
    | [] => Some (REmpty, gi, [])
    | c :: _ =>
        match classify c with
        | TBar | TClose => Some (REmpty, gi, s)
        | _ =>
            match parse_term f gi s with
            | Some (t, gi1, s1) =>
                match parse_alt f gi1 s1 with
                | Some (a, gi2, s2) => Some (RSeq t a, gi2, s2)
                | None => None
                end
            | None => None
            end
        end
    end.
Proof. reflexivity. Qed.

Lemma parse_term_escape f gi c s :
  parse_term (S f) gi ("\"%char :: c :: s) =
    match atom_escape c with
    | Some r => quantified r gi s
    | None => None
    end.
Proof. reflexivity. Qed.

Lemma parse_term_literal f gi c s :
  classify c = TLit → parse_term (S f) gi (c :: s) = quantified (RChar c) gi s.
Proof. intros H. cbn [parse_term]. by rewrite H. Qed.

(** The escaped query parses as the sequence of its units: no unit of the
    query is read as an operator. *)
Lemma parse_alt_escaped q : ∀ fuel gi rest,
  (length q + 2 ≤ fuel)%nat →
  parse_alt fuel gi (escape_units q ++ ")"%char :: rest)
  = Some (lits q, gi, ")"%char :: rest).
Proof.
  induction q as [|c q IH]; intros fuel gi rest Hfuel.
  - destruct fuel as [|f]; [simpl in Hfuel; lia|]. reflexivity.
  - destruct fuel as [|[|f]]; [simpl in Hfuel; lia ..|].
    assert (length q + 2 ≤ S f)%nat as Hf by (simpl in Hfuel; lia).
    unfold escape_units. cbn [flat_map]. fold (escape_units q).
    rewrite parse_alt_S.
    destruct (is_meta c) eqn:Hc.
    + cbn [app]. replace (classify "\"%char) with TBackslash by reflexivity.
      cbn iota. rewrite parse_term_escape.
      rewrite (meta_escape_is_literal c Hc), quantified_escaped, (IH _ _ _ Hf).
      reflexivity.
    + cbn [app]. rewrite (parse_term_literal _ _ _ _ (not_meta_is_literal c Hc)).
      rewrite (not_meta_is_literal c Hc). cbn iota.
      rewrite quantified_escaped, (IH _ _ _ Hf). reflexivity.
Qed.

Lemma escaped_head_not_question q rest :
  starts_with ["?"%char] (escape_units q ++ ")"%char :: rest) = false.
Proof.
  destruct q as [|c q]; [reflexivity|].
  unfold escape_units. cbn [flat_map]. destruct (is_meta c) eqn:Hc; [reflexivity|].
  cbn [app starts_with]. each_unit c; vm_compute in Hc |- *;
    first [reflexivity | discriminate].
Qed.

Lemma length_escape_units q : (length q ≤ length (escape_units q))%nat.
Proof.
  induction q as [|c q IH]; [done|].
  unfold escape_units. cbn [flat_map]. fold (escape_units q).
  rewrite length_app. destruct (is_meta c); simpl; lia.
Qed.

(** [new RegExp('(' + this.escapeRegExp(q) + ')', 'ig')] never throws: it
    is the group 1 around the units of [q]. *)
Lemma search_pattern q :
  new_RegExp ("("%char :: escapeRegExp q ++ [")"%char]) (txt "ig")
  = Some {| source := RSeq (RGroup 1 (lits q)) REmpty;
            rflags := {| ignoreCase := true; global := true |} |}.
Proof.
  rewrite escapeRegExp_units. unfold new_RegExp.
  pose proof (length_escape_units q) as Hlen.
  remember (3 * length ("("%char :: escape_units q ++ [")"%char]) + 3)%nat as fuel
    eqn:Hfuel.
  assert (length q + 6 ≤ fuel)%nat as Hbig.
  { subst fuel. cbn [length]. rewrite length_app. simpl. lia. }
  clear Hfuel.
  destruct fuel as [|[|[|[|f]]]]; [lia ..|].
  cbn [parse_disj parse_alt parse_term].
  replace (classify "("%char) with TOpen by reflexivity. cbn iota.
  rewrite escaped_head_not_question.
  rewrite parse_alt_escaped by lia.
  replace (Ascii.eqb ")" "|") with false by reflexivity.
  replace (Ascii.eqb ")" ")") with true by reflexivity.
  cbn iota. unfold quantified. cbn [parse_quant].
  destruct f; reflexivity.
Qed.

(** ** Matching the pattern of the search *)

Lemma rmatch_lits canon ic q : ∀ x k,
  rmatch canon ic (lits q) x k =
    if matches_here canon ic q (rest x)
    then k {| pos := pos x + length q; rest := drop (length q) (rest x); caps := caps x |}
    else None.
Proof.
  induction q as [|c q IH]; intros [p w cs] k.
  - cbn. by rewrite Nat.add_0_r.
  - cbn [lits foldr rmatch]. fold (lits q). unfold one_unit. cbn [rest].
    destruct w as [|a w]; [reflexivity|].
    cbn [matches_here]. destruct (unit_eq canon ic a c); [|reflexivity].
    rewrite IH. cbn. by rewrite Nat.add_succ_r.
Qed.

(** The pattern matches at a position exactly when the units of the
    query are there, case apart; group 1 is the text found. *)
Lemma match_at_search canon q p w :
  match_at canon (search_regex q) p w =
    if matches_here canon true q w
    then Some {| pos := p + length q; rest := drop (length q) w;
                 caps := [(1%nat, take (length q) w)] |}
    else None.
Proof.
  unfold match_at, search_regex. cbn [source rflags ignoreCase rmatch].
  rewrite rmatch_lits. cbn [rest pos caps].
  destruct (matches_here canon true q w); [|reflexivity].
  unfold set_cap. cbn [pos rest caps].
  by replace (p + length q - p)%nat with (length q) by lia.
Qed.

Lemma expand_mark m cs :
  expand (txt "<mark>$1</mark>") m cs = txt "<mark>" ++ get_cap 1 cs ++ txt "</mark>".
Proof. reflexivity. Qed.

Lemma replace_scan_highlight canon a q w : ∀ n p,
  replace_scan canon (search_regex (a :: q)) (txt "<mark>$1</mark>") p n w
  = highlight_literal canon (a :: q) (drop n w).
Proof.
  induction w as [|c w IH]; intros n p.
  - destruct n; [|reflexivity]. cbn [replace_scan]. rewrite match_at_search.
    cbn [matches_here]. by simp highlight_literal.
  - destruct n as [|n]; [|cbn [replace_scan drop]; apply IH].
    cbn [replace_scan drop]. rewrite match_at_search. simp highlight_literal.
    destruct (matches_here canon true (a :: q) (c :: w)).
    + cbn [pos caps]. replace (p + length (a :: q) - p)%nat with (S (length q))
        by (cbn [length]; lia).
      rewrite expand_mark. cbn [get_cap Nat.eqb take]. rewrite IH.
      unfold mark. by rewrite <- !app_assoc.
    + by rewrite IH.
Qed.

(** The replace of [search] is the literal highlighting. *)
Lemma replace_is_highlight canon q w re :
  q ≠ [] →
  new_RegExp ("("%char :: escapeRegExp q ++ [")"%char]) (txt "ig") = Some re →
  replace canon w re (txt "<mark>$1</mark>") = highlight_literal canon q w.
Proof.
  intros Hq Hre. rewrite search_pattern in Hre. inversion Hre; subst re; clear Hre.
  destruct q as [|a q]; [done|].
  unfold replace. cbn [rflags global]. apply (replace_scan_highlight canon a q w 0 0).
Qed.

(** ** Occurrences, as the RegExp takes them *)

Lemma starts_with_take p : ∀ s, starts_with p s = true ↔ take (length p) s = p.
Proof.
  induction p as [|a p IH]; intros [|b s]; cbn [starts_with length take]; try done.
  rewrite andb_true_iff, IH. split.
  - intros [H ->]. by apply Ascii.eqb_eq in H as ->.
  - intros H. inversion H; subst. split; [apply Ascii.eqb_refl|]. by rewrite H2.
Qed.

(** The matcher finds the query at the head of [w] exactly when [w]
    has an occurrence of it there. *)
Lemma matches_here_occurs fold q w :
  matches_here fold true q w = true ↔ occurs_at fold q w 0.
Proof.
  unfold occurs_at. rewrite drop_0. revert w.
  induction q as [|c q IH]; intros [|a w]; cbn [matches_here length take map]; try done.
  rewrite andb_true_iff, IH. unfold unit_eq. rewrite Ascii.eqb_eq. split.
  - by intros [-> ->].
  - intros H. by inversion H.
Qed.

Lemma occurs_at_drop fold q w i : occurs_at fold q w i ↔ occurs_at fold q (drop i w) 0.
Proof. unfold occurs_at. by rewrite drop_0. Qed.

(** C2: for every query, metacharacters included, the pattern built with
    [escapeRegExp] is well formed: it is group 1 around the units of the
    query, none of them an operator.  It matches at a position exactly
    when the units of the query are there, up to the case folding of the
    RegExp itself; it captures the text found, and the replace wraps
    these occurrences and nothing else. *)
Theorem escaped_query_matches_literally (rt : runtime) (q : str) :
  q ≠ [] →
  ∃ re, new_RegExp ("("%char :: escapeRegExp q ++ [")"%char]) (txt "ig") = Some re
        ∧ source re = RSeq (RGroup 1 (lits q)) REmpty
        ∧ (∀ p w, match_at (folding rt) re p w ≠ None
                  ↔ map (folding rt) (take (length q) w) = map (folding rt) q)
        ∧ (∀ p w y, match_at (folding rt) re p w = Some y →
                    pos y = (p + length q)%nat ∧ get_cap 1 (caps y) = take (length q) w)
        ∧ (∀ w, replace (folding rt) w re (txt "<mark>$1</mark>")
                = highlight_literal (folding rt) q w).
Proof.
  intros Hq. exists (search_regex q). split; [apply search_pattern|].
  split; [reflexivity|]. split; [|split].
  - intros p w. rewrite match_at_search.
    pose proof (matches_here_occurs (folding rt) q w) as H.
    unfold occurs_at in H. rewrite drop_0 in H. rewrite <- H.
    by destruct (matches_here (folding rt) true q w).
  - intros p w y. rewrite match_at_search.
    destruct (matches_here (folding rt) true q w); [|discriminate].
    intros H. inversion H; subst. by split.
  - intros w. apply replace_is_highlight; [done|apply search_pattern].
Qed.

(** The query [c++]: both spellings are wrapped, [c], [c+] and [ccc]
    are not matched. *)
Lemma escaped_query_matches_literally_witness :
  ∃ re, new_RegExp ("("%char :: escapeRegExp (txt "c++") ++ [")"%char]) (txt "ig") = Some re
        ∧ replace (folding engine) (txt "Uso C++ y c++, no c ni c+") re (txt "<mark>$1</mark>")
          = txt "Uso <mark>C++</mark> y <mark>c++</mark>, no c ni c+"
        ∧ match_at (folding engine) re 0 (txt "ccc") = None.
Proof.
  destruct (escaped_query_matches_literally engine (txt "c++"))
    as (re & Hre & _ & Hm & _ & Hw); [discriminate|].
  exists re. split; [exact Hre|]. split.
  - rewrite Hw. by vm_compute.
  - destruct (match_at (folding engine) re 0 (txt "ccc")) eqn:E; [|reflexivity].
    assert (match_at (folding engine) re 0 (txt "ccc") ≠ None) as Hne
      by (rewrite E; discriminate).
    apply Hm in Hne. vm_compute in Hne. discriminate.
Defined.

(** The dot of [a.b] is no wildcard. *)
Lemma dot_is_literal :
  ∃ re, new_RegExp ("("%char :: escapeRegExp (txt "a.b") ++ [")"%char]) (txt "ig") = Some re
        ∧ replace (folding engine) (txt "axb A.B") re (txt "<mark>$1</mark>")
          = txt "axb <mark>A.B</mark>".
Proof.
  eexists. split; [apply search_pattern|]. by vm_compute.
Qed.

(** ** indexOf *)

Lemma index_from_spec p s : ∀ k,
  (index_from p s k = -1 ∧ ∀ i, starts_with p (drop i s) = false) ∨
  (∃ i, index_from p s k = k + Z.of_nat i ∧ (i ≤ length s)%nat ∧
        starts_with p (drop i s) = true ∧
        ∀ j, (j < i)%nat → starts_with p (drop j s) = false).
Proof.
  induction s as [|c s IH]; intros k; cbn [index_from].
  - destruct (starts_with p []) eqn:E.
    + right. exists 0%nat. rewrite Z.add_0_r. repeat split; [done|done|]. intros j Hj. lia.
    + left. split; [done|]. intros i. by rewrite drop_nil.
  - destruct (starts_with p (c :: s)) eqn:E.
    + right. exists 0%nat. rewrite Z.add_0_r. repeat split; [simpl; lia|done|].
      intros j Hj. lia.
    + destruct (IH (k + 1)) as [[H1 H2]|(i & H1 & H2 & H3 & H4)].
      * left. split; [done|]. intros [|i]; [done|]. apply H2.
      * right. exists (S i). repeat split; [lia|simpl; lia|done|].
        intros [|j] Hj; [done|]. apply H4. lia.
Qed.

(** [indexOf] on the lower case of the text and of the query finds the
    first index where the one is in the other, or returns -1 when there
    is none. *)
Lemma indexOf_found rt plain q :
  (indexOf (toLowerCase rt plain) (toLowerCase rt q) = -1 ∧ ∀ i, ¬ found_at rt q plain i) ∨
  (∃ i, indexOf (toLowerCase rt plain) (toLowerCase rt q) = Z.of_nat i ∧
        found_at rt q plain i ∧
        ∀ j, (j < i)%nat → ¬ found_at rt q plain j).
Proof.
  assert (∀ i, starts_with (toLowerCase rt q) (drop i (toLowerCase rt plain)) = true
               ↔ found_at rt q plain i) as Hocc.
  { intros i. apply starts_with_take. }
  unfold indexOf.
  destruct (index_from_spec (toLowerCase rt q) (toLowerCase rt plain) 0)
    as [[H1 H2]|(i & H1 & H2 & H3 & H4)].
  - left. split; [done|]. intros i Hi. apply Hocc in Hi. by rewrite H2 in Hi.
  - right. exists i.
    repeat split; [by rewrite H1|by apply Hocc|].
    intros j Hj Ho. apply Hocc in Ho. by rewrite H4 in Ho.
Qed.

Lemma indexOf_first rt plain q i :
  found_at rt q plain i → (∀ j, (j < i)%nat → ¬ found_at rt q plain j) →
  indexOf (toLowerCase rt plain) (toLowerCase rt q) = Z.of_nat i.
Proof.
  intros Ho Hfirst.
  destruct (indexOf_found rt plain q) as [[_ H]|(i' & -> & Ho' & Hfirst')].
  - by destruct (H i).
  - f_equal. destruct (Nat.lt_trichotomy i i') as [H|[H|H]]; [|done|].
    + by destruct (Hfirst' i).
    + by destruct (Hfirst i').
Qed.

(** ** Case folded unit by unit *)







(** ** The scan of the pages *)

Lemma substring_window plain i :
  trim (substring plain (Z.max 0 (Z.of_nat i - 80)) (Z.min (strlen plain) (Z.of_nat i + 80)))
  = window_of plain i.
Proof.
  unfold window_of, substring, clamp, strlen.
  destruct (decide (i - 80 ≤ length plain)%nat) as [Hi|Hi]; cycle 1.
  { rewrite (drop_ge plain (i - 80)) by lia. rewrite take_nil.
    replace (Nat.max _ _ - Nat.min _ _)%nat with 0%nat by lia. by rewrite take_0. }
  replace (Z.to_nat (Z.min (Z.max (Z.max 0 (Z.of_nat i - 80)) 0) (Z.of_nat (length plain))))
    with (i - 80)%nat by lia.
  replace (Z.to_nat (Z.min (Z.max (Z.min (Z.of_nat (length plain)) (Z.of_nat i + 80)) 0)
                           (Z.of_nat (length plain))))
    with (Nat.min (length plain) (i + 80)) by lia.
  replace (Nat.max (i - 80) (Nat.min (length plain) (i + 80)))
    with (Nat.min (length plain) (i + 80)) by lia.
  by replace (Nat.min (i - 80) (Nat.min (length plain) (i + 80))) with (i - 80)%nat by lia.
Qed.




Section Scan.

Variable rt : runtime.

Local Abbreviation plain_of := (plain_text rt).
Local Abbreviation scan_one := (scan_page rt).
Local Abbreviation scan_all := (scan_from rt).

(** What [scan_page] pushes for a page with a match at first index [i]. *)
Lemma scan_page_found o q f text i :
  text ≠ [] →
  found_at rt q (plain_of o text) i →
  (∀ j, (j < i)%nat → ¬ found_at rt q (plain_of o text) j) →
  scan_one o q f text =
    inr (Some {| file := f;
                 snippet := replace (folding rt) (window_of (plain_of o text) i)
                                    (search_regex q) (txt "<mark>$1</mark>") |}).
Proof.
  intros Ht Ho Hfirst. unfold scan_page. destruct text as [|c text]; [done|].
  rewrite (indexOf_first _ _ _ _ Ho Hfirst), search_pattern.
  destruct (Z.eqb_spec (Z.of_nat i) (-1)) as [H|_]; [lia|].
  by rewrite substring_window.
Qed.

Lemma scan_page_none o q f text :
  text = [] ∨ ¬ has_occurrence rt q (plain_of o text) →
  scan_one o q f text = inr None.
Proof.
  intros H. unfold scan_page. destruct text as [|c text]; [done|].
  destruct H as [H|H]; [done|].
  destruct (indexOf_found rt (plain_of o (c :: text)) q) as [[-> _]|(i & _ & Ho & _)].
  - reflexivity.
  - destruct H. by exists i.
Qed.

(** A page is listed exactly when its text is not empty and has an
    occurrence of the query; no page makes the scan fail. *)
Lemma scan_page_listed o q f text :
  (text ≠ [] ∧ has_occurrence rt q (plain_of o text)
   ∧ ∃ s, scan_one o q f text = inr (Some {| file := f; snippet := s |}))
  ∨ ((text = [] ∨ ¬ has_occurrence rt q (plain_of o text))
     ∧ scan_one o q f text = inr None).
Proof.
  destruct text as [|c text]; [right; split; [by left|done]|].
  destruct (indexOf_found rt (plain_of o (c :: text)) q)
    as [[_ H]|(i & _ & Ho & Hfirst)].
  - right. assert (¬ has_occurrence rt q (plain_of o (c :: text))) as Hn
      by (intros [j Hj]; by destruct (H j)).
    split; [by right|]. apply scan_page_none. by right.
  - left. split; [done|]. split; [by exists i|].
    eexists. by apply scan_page_found.
Qed.

Lemma scan_from_listed o q fs texts : ∀ i0,
  ∃ rs idxs,
    scan_all o q fs i0 texts = inr rs
    ∧ map file rs = map (fun i => fs !! i) idxs
    ∧ StronglySorted lt idxs
    ∧ Forall (fun i => i0 ≤ i)%nat idxs
    ∧ ∀ i, i ∈ idxs ↔
           (i0 ≤ i)%nat ∧
           ∃ text, texts !! (i - i0)%nat = Some text ∧ text ≠ [] ∧
                   has_occurrence rt q (plain_of o text).
Proof.
  induction texts as [|text texts IH]; intros i0.
  - exists [], []. split; [done|]. split; [done|]. split; [constructor|].
    split; [constructor|]. intros i. split.
    + intros Hi. by apply elem_of_nil in Hi.
    + intros [_ (text & Ht & _)]. done.
  - destruct (IH (S i0)) as (rs & idxs & Hrs & Hfiles & Hsorted & Hge & Hin).
    cbn [scan_from]. rewrite Hrs.
    assert (∀ i, i ∈ idxs ↔
              (S i0 ≤ i)%nat ∧
              ∃ t, (text :: texts) !! (i - i0)%nat = Some t ∧ t ≠ [] ∧
                   has_occurrence rt q (plain_of o t)) as Hin'.
    { intros i. rewrite Hin. split; intros [Hle (t & Ht & Hrest)]; (split; [done|]);
        exists t; (split; [|done]).
      - by replace (i - i0)%nat with (S (i - S i0)) by lia.
      - by replace (i - i0)%nat with (S (i - S i0)) in Ht by lia. }
    destruct (scan_page_listed o q (fs !! i0) text)
      as [(Hne & Hocc & s & ->)|[Hnot ->]].
    + exists ({| file := fs !! i0; snippet := s |} :: rs), (i0 :: idxs).
      split; [done|]. split; [by cbn; rewrite Hfiles|].
      split; [constructor; [done|]; eapply Forall_impl; [exact Hge|]; simpl; lia|].
      split; [constructor; [lia|]; eapply Forall_impl; [exact Hge|]; simpl; lia|].
      intros i. rewrite elem_of_cons, Hin'. split.
      * intros [->|[Hle Hex]]; [|split; [lia|done]].
        split; [lia|]. exists text. by rewrite Nat.sub_diag.
      * intros [Hle Hex]. destruct (decide (i = i0)) as [->|Hd]; [by left|].
        right. split; [lia|done].
    + exists rs, idxs. split; [done|]. split; [done|]. split; [done|].
      split; [eapply Forall_impl; [exact Hge|]; simpl; lia|].
      intros i. rewrite Hin'. split; [intros [Hle Hex]; split; [lia|done]|].
      intros [Hle (t & Ht & Hne & Hocc)].
      destruct (decide (i = i0)) as [->|Hd].
      * rewrite Nat.sub_diag in Ht. simpl in Ht. inversion Ht; subst t.
        by destruct Hnot.
      * split; [lia|]. by exists t.
Qed.


End Scan.

(** ** What the highlighting wraps *)

Section Highlight.

Variable fold : ascii -> ascii.








End Highlight.

Section Snippet.

Variable rt : runtime.



End Snippet.



(** ** search as a whole *)

Lemma loadTranslations_returns rt lang (e : env) (o : I18n) :
  ∃ e1 o1, loadTranslations rt lang (e, o) = (inr tt, (e1, o1)) ∧ net e1 = net e.
Proof.
  destruct (truthy (table_of rt o lang)) eqn:Ht.
  - rewrite loadTranslations_cached by done. eauto.
  - rewrite loadTranslations_uncached by done.
    destruct (net e (translation_url lang)) as [|r]; [eauto|].
    destruct (ok r); [|eauto]. destruct (json_body r); eauto.
Qed.

Lemma load_step_returns rt lang p :
  ∃ p1, try_catch (lift_i18n (loadTranslations rt lang)) (fun _ => ret tt) p = (inr tt, p1)
        ∧ net (penv p1) = net (penv p)
        ∧ resultsEl p1 = resultsEl p.
Proof.
  unfold try_catch, lift_i18n. destruct (window_i18n p) as [o|] eqn:Ho.
  - destruct (loadTranslations_returns rt lang (penv p) o) as (e1 & o1 & -> & Hnet).
    eexists. split; [reflexivity|]. by destruct p.
  - eexists. split; [reflexivity|]. done.
Qed.

Lemma getQuery_reads b p : getQuery b p = (fst (getQuery b p), p).
Proof. reflexivity. Qed.

Section Whole.

Variable rt : runtime.

(** With an empty query [search] shows the message and fetches
    nothing. *)
Lemma search_empty_query b p :
  fst (getQuery b p) = inr [] → search_input p (inputSelector b) ≠ BadSelector →
  search rt b p
  = renderNoQuery rt (snd (setInputValue b [] p)).
Proof.
  intros H Hsel. unfold search. unfold bind at 1. rewrite getQuery_reads, H.
  unfold bind, setInputValue. by destruct (search_input p (inputSelector b)).
Qed.

(** With a query, [search] never throws before rendering: it renders the
    results of the scan of what [fetchFiles] returned, or the message
    when there are none. *)
Lemma search_renders_scan b p c q :
  fst (getQuery b p) = inr (c :: q) →
  search_input p (inputSelector b) ≠ BadSelector →
  ∃ p1 rs,
    scan_from rt (window_i18n p1) (c :: q) (files b) 0
              (map (slot (net (penv p))) (files b)) = inr rs
    ∧ resultsEl p1 = resultsEl (snd (setInputValue b (c :: q) p))
    ∧ search rt b p
      = match rs with
        | [] => renderNoResults rt p1
        | _ :: _ => renderResults rt rs p1
        end.
Proof.
  intros H Hsel. unfold search. unfold bind at 1. rewrite getQuery_reads, H.
  unfold bind at 1.
  set (p0 := snd (setInputValue b (c :: q) p)).
  assert (setInputValue b (c :: q) p = (inr tt, p0)) as ->.
  { subst p0. unfold setInputValue. by destruct (search_input p (inputSelector b)). }
  assert (net (penv p0) = net (penv p)) as Hn0.
  { subst p0. unfold setInputValue. by destruct (search_input p (inputSelector b)). }
  unfold bind at 1. unfold get at 1. unfold bind at 1.
  assert (∃ p', (match (match window_i18n p0 with
                        | Some o => match currentLanguage o with
                                    | [] => None
                                    | c0 :: l => Some (c0 :: l)
                                    end
                        | None => None
                        end) with
                 | Some l => try_catch (lift_i18n (loadTranslations rt l)) (fun _ => ret tt)
                 | None => ret tt
                 end) p0 = (inr tt, p')
                ∧ net (penv p') = net (penv p0) ∧ resultsEl p' = resultsEl p0)
    as (p' & -> & Hn' & Hr').
  { destruct (match window_i18n p0 with
              | Some o => match currentLanguage o with
                          | [] => None
                          | c0 :: l => Some (c0 :: l)
                          end
              | None => None
              end) as [l|].
    - apply load_step_returns.
    - exists p0. by unfold ret. }
  unfold bind at 1. rewrite fetchFiles_slots. unfold bind at 1. unfold get.
  set (p1 := set_penv (requested (files b) (penv p')) p').
  rewrite Hn', Hn0.
  destruct (scan_from_listed rt (window_i18n p1) (c :: q) (files b)
              (map (slot (net (penv p))) (files b)) 0) as (rs & idxs & Hrs & _).
  exists p1, rs. split; [done|].
  split; [subst p1; by rewrite <- Hr'; destruct p'|].
  unfold bind, of_sum. rewrite Hrs. by destruct rs.
Qed.

End Whole.

(** The scenario of the specification: one page answers with the term,
    one address is unreachable; [search] lists the one page. *)
Lemma search_lists_reachable_match :
  let b := a_buscador [txt "caido.html"; txt "index.html"] in
  let p := a_page site (txt " Mundo ") (Some (section_with [heading; old_article])) in
  fst (search engine b p) = inr tt ∧
  requests (penv (snd (search engine b p)))
    = [txt "caido.html"; txt "index.html"] ∧
  kids <$> resultsEl (snd (search engine b p))
    = Some [heading;
            article engine {| file := Some (txt "index.html");
                               snippet := txt "<p>Hola <mark>mundo</mark></p>" |}].
Proof. by vm_compute. Qed.

(** ** translate *)

Lemma node_nested_ind (P : node → Prop) :
  (∀ d, P (TextNode d)) →
  (∀ tg attrs v ks, Forall P ks → P (Element tg attrs v ks)) →
  ∀ n, P n.
Proof.
  intros Htext Helem. fix IH 1. intros [d|tg attrs v ks]; [apply Htext|].
  apply Helem. induction ks as [|k ks IHks]; constructor; [apply IH|apply IHks].
Qed.

(** When the translation of a page throws, the search reads the page as
    the translation left it.  With the broken paragraph first, nothing is
    translated, and the page is found by the text of its second
    paragraph; with the broken paragraph second, the first paragraph is
    translated, and the page is found by its translation and no longer by
    the text it had. *)
Lemma search_reads_partly_translated_page :
  let broken_first :=
    two_paragraphs (broken_paragraph (txt "uno ")) (translated_paragraph (txt "dos")) in
  let broken_second :=
    two_paragraphs (translated_paragraph (txt "uno ")) (broken_paragraph (txt "dos")) in
  (∃ e, translate (engine_parsing broken_first) es_store broken_first = inl e)
  ∧ plain_text (engine_parsing broken_first) (Some es_store) (txt "x") = txt "uno dos"
  ∧ plain_text (engine_parsing broken_second) (Some es_store) (txt "x") = txt "Escribe algodos"
  ∧ (∃ s, scan_page (engine_parsing broken_first) (Some es_store) (txt "dos") None (txt "x")
          = inr (Some {| file := None; snippet := s |}))
  ∧ scan_page (engine_parsing broken_second) (Some es_store) (txt "uno") None (txt "x")
    = inr None.
Proof.
  intros broken_first broken_second.
  split; [eexists; by vm_compute|]. split; [by vm_compute|]. split; [by vm_compute|].
  split; [eexists; by vm_compute|]. by vm_compute.
Qed.

(** ** renderResults *)




(** * More of the code *)

(** ** The translation store: language and persistence *)

(** X1: The initial language is never the empty string, and a stored
    preference that is not empty is taken whatever the locale is. *)
Theorem constructor_language_stored_or_default (e : env) (l : str) :
  localStorage e !! txt "language" = Some l → l ≠ [] →
  currentLanguage (constructor e) = l ∧
  ∀ e0, currentLanguage (constructor e0) ≠ [].
Proof.
  intros Hl Hne. split.
  - rewrite constructor_language, Hl. by destruct l.
  - intros e0. rewrite constructor_language.
    destruct (localStorage e0 !! txt "language") as [[|c l0]|];
      destruct (split "-" (navigator_language e0)) as [|[|c' l'] ?]; discriminate.
Qed.

Lemma constructor_language_stored_or_default_witness :
  currentLanguage (constructor (browser (Some (txt "en")) (txt "fr-FR") offline)) = txt "en".
Proof.
  apply (constructor_language_stored_or_default
           (browser (Some (txt "en")) (txt "fr-FR") offline) (txt "en")).
  - vm_compute. reflexivity.
  - discriminate.
Defined.

Lemma setLanguage_accepts lang e o :
  lang ∈ supportedLanguages o →
  setLanguage lang (e, o)
  = (inr true,
     (set_document_lang lang (set_item (txt "language") lang e),
      set_currentLanguage lang o)).
Proof.
  intros H. unfold setLanguage, bind, this. simpl.
  rewrite bool_decide_eq_true_2 by done. reflexivity.
Qed.

Lemma setLanguage_refuses lang e o :
  lang ∉ supportedLanguages o → setLanguage lang (e, o) = (inr false, (e, o)).
Proof.
  intros H. unfold setLanguage, bind, this. simpl.
  rewrite bool_decide_eq_false_2 by done. reflexivity.
Qed.



(** X3: [setLanguage] keeps the current language supported: from a store
    whose language is supported, no sequence of calls, with supported or
    unsupported codes, leads to an unsupported language; the supported
    set, the tables and the requests are never touched. *)
Theorem setLanguage_keeps_language_supported (langs : list str) (e : env) (o : I18n) :
  supported o →
  let w := after_setLanguages langs (e, o) in
  supported (snd w)
  ∧ supportedLanguages (snd w) = supportedLanguages o
  ∧ translations (snd w) = translations o
  ∧ requests (fst w) = requests e.
Proof.
  revert e o. induction langs as [|lang langs IH]; intros e o Hs; [done|].
  cbn [after_setLanguages foldl]. fold (after_setLanguages langs).
  destruct (decide (lang ∈ supportedLanguages o)) as [Hin|Hout].
  - rewrite setLanguage_accepts by done. cbn [snd].
    destruct (IH (set_document_lang lang (set_item (txt "language") lang e))
                 (set_currentLanguage lang o)) as (H1 & H2 & H3 & H4); [exact Hin|].
    done.
  - rewrite setLanguage_refuses by done. by apply IH.
Qed.

Lemma setLanguage_keeps_language_supported_witness :
  let e := browser (Some (txt "en")) (txt "es") offline in
  supported (snd (after_setLanguages [txt "fr"; txt "es"; txt "de"] (e, constructor e))).
Proof.
  intros e.
  apply (setLanguage_keeps_language_supported [txt "fr"; txt "es"; txt "de"] e (constructor e)).
  unfold supported. vm_compute. apply list_elem_of_In. simpl. tauto.
Defined.

(** ** The translation store: loading and reading *)

Section LoadAndRead.

Variable rt : runtime.

Lemma table_of_set lang j o : table_of rt (set_translations lang j o) lang = Some j.
Proof. unfold table_of, prop. cbn [own translations set_translations]. by rewrite lookup_insert_eq. Qed.

(** X4: A table that was loaded is the one [t] reads: after a successful
    load for the current language, every key whose segments resolve to
    truthy values in the loaded table is translated to the value at the
    end of its path; one request was made and nothing was logged. *)
Theorem loaded_table_is_read_by_t
        (e : env) (o : I18n) (r : response) (table : gmap (list ascii) json)
        (key : str) (v : jsval) :
  truthy (table_of rt o (currentLanguage o)) = false →
  net e (translation_url (currentLanguage o)) = Fulfilled r →
  ok r = true → json_body r = Some (JObj table) →
  follow rt (Some (JObj table)) (split "." key) = Some v →
  ∃ e1 o1, loadTranslations rt (currentLanguage o) (e, o) = (inr tt, (e1, o1))
           ∧ requests e1 = requests e ++ [translation_url (currentLanguage o)]
           ∧ console e1 = console e
           ∧ t rt o1 key = inr v.
Proof.
  intros Hc Hnet Hok Hbody Hf.
  rewrite loadTranslations_uncached by done. rewrite Hnet, Hok, Hbody.
  eexists _, _. split; [reflexivity|]. split; [done|]. split; [done|].
  unfold t. cbn [currentLanguage set_translations].
  change (table_of rt _ (currentLanguage o))
    with (table_of rt (set_translations (currentLanguage o) (JObj table) o) (currentLanguage o)).
  rewrite table_of_set. unfold or_else. cbn [truthy]. by apply walk_follow.
Qed.

(** X5: A resource whose JSON is a falsy value ([null], [false], [0] or the
    empty string) is stored but never counts as cached: the next call
    fetches it again. *)
Theorem falsy_resource_is_fetched_again
        (lang : str) (e : env) (o : I18n) (r : response) (j : json) :
  truthy (table_of rt o lang) = false →
  net e (translation_url lang) = Fulfilled r →
  ok r = true → json_body r = Some j → truthy (Some j) = false →
  ∃ e1 o1 e2 o2,
    loadTranslations rt lang (e, o) = (inr tt, (e1, o1))
    ∧ translations o1 !! lang = Some j
    ∧ loadTranslations rt lang (e1, o1) = (inr tt, (e2, o2))
    ∧ requests e2 = requests e ++ [translation_url lang; translation_url lang].
Proof.
  intros Hc Hnet Hok Hbody Hj.
  rewrite loadTranslations_uncached by done. rewrite Hnet, Hok, Hbody.
  eexists _, _, _, _. split; [reflexivity|].
  split; [cbn [translations set_translations]; apply lookup_insert_eq|].
  rewrite loadTranslations_uncached by (by rewrite table_of_set).
  cbn [net log_request]. rewrite Hnet, Hok, Hbody.
  split; [reflexivity|]. cbn [requests log_request]. by rewrite <- app_assoc.
Qed.

Lemma translate_element_eq o n :
  translate_element rt o n =
    match n with
    | TextNode _ => (n, None)
    | Element _ _ _ ks =>
        let below (n1 : node) (attached : bool) : node * option exn :=
          let '(ks1, r) := translate_each rt o ks in
          (if attached then set_children ks1 n1 else n1, r) in
        match getAttribute (txt "data-i18n") n with
        | None => below n true
        | Some key =>
            match t rt o key with
            | inl e => (n, Some e)
            | inr v =>
                match dom_convert v with
                | inl e => (n, Some e)
                | inr text =>
                    match translate_one rt text n with
                    | inl e => (n, Some e)
                    | inr (n1, same) => below n1 same
                    end
                end
            end
        end
    end.
Proof.
  destruct n as [d|tg attrs v ks]; [reflexivity|].
  assert ((fix each (ks : list node) : list node * option exn :=
             match ks with
             | [] => ([], None)
             | k :: ks' =>
                 match translate_element rt o k with
                 | (k1, Some e) => (k1 :: ks', Some e)
                 | (k1, None) => let '(ks1, r) := each ks' in (k1 :: ks1, r)
                 end
             end) ks = translate_each rt o ks) as Heach.
  { induction ks as [|k ks IH]; [reflexivity|]. cbn [translate_each]. by rewrite IH. }
  cbn [translate_element]. by rewrite Heach.
Qed.

Lemma translate_each_app o xs ys xs' :
  translate_each rt o xs = (xs', None) →
  translate_each rt o (xs ++ ys)
  = let '(ys', r) := translate_each rt o ys in (xs' ++ ys', r).
Proof.
  revert xs'. induction xs as [|x xs IH]; intros xs' H; cbn [translate_each app] in *.
  - injection H as <-. by destruct (translate_each rt o ys).
  - destruct (translate_element rt o x) as [x1 [e|]]; [discriminate|].
    destruct (translate_each rt o xs) as [xs1 r] eqn:Hxs. injection H as <- ->.
    rewrite (IH xs1 eq_refl). by destruct (translate_each rt o ys).
Qed.

Lemma translate_element_unmarked o n :
  unmarked n = true → translate_element rt o n = (n, None).
Proof.
  induction n as [d|tg attrs v ks IH] using node_nested_ind; [done|].
  cbn [unmarked]. rewrite andb_true_iff, negb_true_iff. intros [Hattr Hks].
  apply bool_decide_eq_false in Hattr.
  assert (assoc (txt "data-i18n") attrs = None) as Hnone.
  { destruct (assoc (txt "data-i18n") attrs); [|done]. destruct Hattr. by eexists. }
  assert (translate_each rt o ks = (ks, None)) as Heach.
  { induction IH as [|k ks Hk _ IHks]; [done|].
    cbn [forallb] in Hks. apply andb_true_iff in Hks as [Hk1 Hk2].
    cbn [translate_each]. by rewrite (Hk Hk1), (IHks Hk2). }
  rewrite translate_element_eq. cbn [getAttribute]. by rewrite Hnone, Heach.
Qed.

Lemma translate_each_unmarked o ks :
  forallb unmarked ks = true → translate_each rt o ks = (ks, None).
Proof.
  induction ks as [|k ks IH]; [done|]. cbn [forallb]. rewrite andb_true_iff.
  intros [Hk Hks]. cbn [translate_each].
  by rewrite (translate_element_unmarked o k Hk), (IH Hks).
Qed.

Lemma translate_unmarked o n : unmarked n = true → translate rt o n = inr n.
Proof.
  intros H. unfold translate, translate_run.
  destruct n as [d|tg attrs v ks]; [reflexivity|].
  cbn [unmarked] in H. apply andb_true_iff in H as [_ Hks].
  cbn [kids]. by rewrite (translate_each_unmarked o ks Hks).
Qed.

(** X6: [translate] leaves a tree without [data-i18n] elements as it is. *)
Theorem translate_leaves_unmarked_tree (o : I18n) (n : node) :
  unmarked n = true → translate rt o n = inr n.
Proof. apply translate_unmarked. Qed.

(** X7: An element whose key has no translation shows the key: for a plain
    element below the root (not an input or textarea, no attribute
    target, no markup mode) that no marked element precedes, with a key
    a segment of which names no property, [translate] makes the key the
    whole text of the element, also when it throws further on. *)
Theorem translate_shows_missing_key
        (o : I18n) (root_tag : str) (root_attrs : list (str * str)) (root_value : str)
        (before after : list node)
        (tg : str) (attrs : list (str * str)) (v : str) (ks : list node) (key : str) :
  let el := Element tg attrs v ks in
  forallb unmarked before = true →
  assoc (txt "data-i18n") attrs = Some key →
  is_control el = false →
  assoc (txt "data-i18n-attr") attrs = None →
  assoc (txt "data-i18n-html") attrs = None →
  resolve rt (start rt o) (split "." key) = inr None →
  (∃ after',
     fst (translate_run rt o (Element root_tag root_attrs root_value
                                      (before ++ el :: after)))
     = Element root_tag root_attrs root_value
               (before ++ set_textContent key el :: after'))
  ∧ textContent (set_textContent key el) = key.
Proof.
  intros el Hbefore Hkey Hctl Hattr Hhtml Hmiss. subst el. split.
  - unfold translate_run. cbn [kids].
    rewrite (translate_each_app o before _ before (translate_each_unmarked o before Hbefore)).
    cbn [translate_each]. rewrite translate_element_eq. cbn [getAttribute]. rewrite Hkey.
    assert (t rt o key = inr (Some (JStr key))) as ->.
    { unfold t. fold (start rt o). by apply walk_missing; [apply start_truthy|]. }
    unfold translate_one. rewrite Hctl.
    unfold hasAttribute. cbn [getAttribute]. rewrite Hattr, Hhtml.
    destruct (translate_each rt o ks) as [ks1 [e|]].
    + by exists after.
    + destruct (translate_each rt o after) as [after1 r]. by exists after1.
  - destruct key as [|c key]; [reflexivity|]. cbn. by rewrite app_nil_r.
Qed.

End LoadAndRead.

Lemma loaded_table_is_read_by_t_witness :
  let n := fun u => if decide (u = txt "i18n/es.json")
                    then Fulfilled {| ok := true; text := None; json_body := Some es_table |}
                    else NetworkError in
  let e := browser None (txt "es") n in
  ∃ e1 o1, loadTranslations engine (txt "es") (e, constructor e) = (inr tt, (e1, o1))
           ∧ t engine o1 (txt "search.empty_query") = inr (Some (JStr (txt "Escribe algo"))).
Proof.
  intros n e.
  destruct (loaded_table_is_read_by_t engine e (constructor e)
              {| ok := true; text := None; json_body := Some es_table |}
              {[ txt "search" :=
                   JObj (<[ txt "hint" := JStr [] ]>
                           {[ txt "empty_query" := JStr (txt "Escribe algo") ]}) ]}
              (txt "search.empty_query") (Some (JStr (txt "Escribe algo"))))
    as (e1 & o1 & H1 & _ & _ & H2).
  - vm_compute. reflexivity.
  - vm_compute. reflexivity.
  - reflexivity.
  - reflexivity.
  - vm_compute. reflexivity.
  - by exists e1, o1.
Defined.

Lemma falsy_resource_is_fetched_again_witness :
  let n := fun u : str => Fulfilled {| ok := true; text := None; json_body := Some JNull |} in
  let e := browser None (txt "es") n in
  ∃ e1 o1 e2 o2,
    loadTranslations engine (txt "es") (e, constructor e) = (inr tt, (e1, o1))
    ∧ loadTranslations engine (txt "es") (e1, o1) = (inr tt, (e2, o2))
    ∧ requests e2 = [txt "i18n/es.json"; txt "i18n/es.json"].
Proof.
  intros n e.
  destruct (falsy_resource_is_fetched_again engine (txt "es") e (constructor e)
              {| ok := true; text := None; json_body := Some JNull |} JNull)
    as (e1 & o1 & e2 & o2 & H1 & _ & H2 & H3).
  - vm_compute. reflexivity.
  - reflexivity.
  - reflexivity.
  - reflexivity.
  - reflexivity.
  - by exists e1, o1, e2, o2.
Defined.

Lemma translate_leaves_unmarked_tree_witness :
  translate engine es_store (section_with [heading; old_article])
  = inr (section_with [heading; old_article]).
Proof. apply translate_leaves_unmarked_tree. vm_compute. reflexivity. Defined.

Lemma translate_shows_missing_key_witness :
  let el := Element (txt "H1") [(txt "data-i18n", txt "nav.home")] [] [TextNode (txt "Inicio")] in
  (∃ after',
     fst (translate_run engine es_store (section_with ([heading] ++ el :: [])))
     = section_with ([heading] ++ set_textContent (txt "nav.home") el :: after'))
  ∧ textContent (set_textContent (txt "nav.home") el) = txt "nav.home".
Proof.
  apply (translate_shows_missing_key engine es_store (txt "SECTION") [] [] [heading] []
           (txt "H1") [(txt "data-i18n", txt "nav.home")] [] [TextNode (txt "Inicio")]
           (txt "nav.home")); vm_compute; reflexivity.
Defined.

(** ** switchLanguage *)

Section Switch.

Variable rt : runtime.

(** What [loadTranslations] leaves alone: the language, the supported
    set, the stored preference and the language of the document; and it
    makes one request at most. *)
Lemma loadTranslations_frame lang (e : env) (o : I18n) :
  ∃ e1 o1, loadTranslations rt lang (e, o) = (inr tt, (e1, o1))
           ∧ currentLanguage o1 = currentLanguage o
           ∧ supportedLanguages o1 = supportedLanguages o
           ∧ localStorage e1 = localStorage e
           ∧ document_lang e1 = document_lang e
           ∧ (requests e1 = requests e ∨ requests e1 = requests e ++ [translation_url lang]).
Proof.
  destruct (truthy (table_of rt o lang)) eqn:Ht.
  - rewrite loadTranslations_cached by done. eexists _, _. split; [reflexivity|].
    repeat split; by left.
  - rewrite loadTranslations_uncached by done.
    destruct (net e (translation_url lang)) as [|r];
      [|destruct (ok r); [destruct (json_body r)|]];
      (eexists _, _; split; [reflexivity|]; repeat split; by right).
Qed.

(** X8: A code that is not supported changes nothing: [switchLanguage]
    returns [false], makes no request, and the language, the tables, the
    stored preference and the document stay as they are. *)
Theorem switchLanguage_refuses_unsupported
        (lang : str) (document : node) (e : env) (o : I18n) :
  lang ∉ supportedLanguages o →
  I18n.switchLanguage rt lang document (e, o) = (inr (false, document), (e, o)).
Proof.
  intros H. unfold I18n.switchLanguage, bind. by rewrite setLanguage_refuses.
Qed.



End Switch.

Lemma switchLanguage_refuses_unsupported_witness :
  let e := browser None (txt "es") offline in
  I18n.switchLanguage engine (txt "fr") heading (e, constructor e)
  = (inr (false, heading), (e, constructor e)).
Proof.
  intros e. apply switchLanguage_refuses_unsupported.
  vm_compute. intros H. apply list_elem_of_In in H. simpl in H.
  destruct H as [H|[H|[]]]; discriminate.
Defined.


(** ** The language selector *)

Section Selector.

Variable toUpperCase : str -> str.

Lemma foldl_appendChild (f : str → node) langs : ∀ tg attrs v ks,
  foldl (fun selector lang => appendChild (f lang) selector) (Element tg attrs v ks) langs
  = Element tg attrs v (ks ++ map f langs).
Proof.
  induction langs as [|l langs IH]; intros tg attrs v ks; cbn [foldl map].
  - by rewrite app_nil_r.
  - cbn [appendChild kids set_children]. rewrite IH. by rewrite <- app_assoc.
Qed.

Lemma createSelector_children this :
  LanguageSelector.createSelector toUpperCase this
  = Element (ascii_uppercase (txt "aside"))
            [(txt "aria-label", txt "Seleccionar idioma")] []
            (map (LanguageSelector.button toUpperCase this)
                 (LanguageSelector.supportedLanguages this)).
Proof.
  unfold LanguageSelector.createSelector, createElement.
  cbn [setAttribute assoc_set]. by rewrite foldl_appendChild.
Qed.

Lemma update_button this lang l :
  LanguageSelector.updateButtonStates lang (LanguageSelector.button toUpperCase this l)
  = LanguageSelector.button toUpperCase
      (LanguageSelector.set_currentLanguage lang this) l.
Proof.
  unfold LanguageSelector.button, createElement, set_textContent.
  cbn [LanguageSelector.currentLanguage LanguageSelector.set_currentLanguage].
  destruct (toUpperCase l) as [|c u]; vm_compute; reflexivity.
Qed.

(** X12: [updateButtonStates] brings the selector to the state a fresh one
    has: after it, the selector is the one [createSelector] builds for
    the new language, so the pressed button is the one of that language
    and the button of every other language is released. *)
Theorem updateButtonStates_rebuilds_selector (this : LanguageSelector.LanguageSelector)
        (lang : str) :
  LanguageSelector.updateButtonStates lang (LanguageSelector.createSelector toUpperCase this)
  = LanguageSelector.createSelector toUpperCase
      (LanguageSelector.set_currentLanguage lang this).
Proof.
  rewrite !createSelector_children.
  cbn [LanguageSelector.updateButtonStates getAttribute assoc].
  rewrite decide_False by (by vm_compute).
  cbn [LanguageSelector.supportedLanguages LanguageSelector.set_currentLanguage].
  f_equal. rewrite List.map_map. apply List.map_ext. intros l. apply update_button.
Qed.

(** X11: The selector has one button per supported language, in order, each
    with its code in [data-lang], and [aria-pressed] is [true] on the
    buttons of the current language and [false] on the others. *)
Theorem createSelector_buttons (this : LanguageSelector.LanguageSelector) :
  let buttons := kids (LanguageSelector.createSelector toUpperCase this) in
  map (getAttribute (txt "data-lang")) buttons
    = map Some (LanguageSelector.supportedLanguages this)
  ∧ map (getAttribute (txt "aria-pressed")) buttons
    = map (fun l => Some (LanguageSelector.pressed
                            (bool_decide (l = LanguageSelector.currentLanguage this))))
          (LanguageSelector.supportedLanguages this).
Proof.
  rewrite createSelector_children. cbn [kids]. rewrite !List.map_map.
  split; apply List.map_ext; intros l; unfold LanguageSelector.button, createElement,
    set_textContent; destruct (toUpperCase l); vm_compute; reflexivity.
Qed.

End Selector.

(** X13: [LanguageSelector.switchLanguage] does not look at what the store
    answers: after a code that the store refuses, the selector holds that
    code as its language while the store keeps its own; the document is
    not translated and only the buttons are updated. *)
Theorem selector_switch_ignores_refusal
        (rt : runtime) (this : LanguageSelector.LanguageSelector) (lang : str)
        (document : node) (e : env) (o : I18n) :
  lang ∉ supportedLanguages o →
  LanguageSelector.switchLanguage rt this lang document (e, Some o)
  = (inr (LanguageSelector.set_currentLanguage lang this,
          LanguageSelector.updateButtonStates lang document),
     (e, Some o)).
Proof.
  intros H. unfold LanguageSelector.switchLanguage, I18n.switchLanguage, bind.
  by rewrite setLanguage_refuses.
Qed.

Lemma selector_switch_ignores_refusal_witness :
  let e := browser None (txt "es") offline in
  let this := LanguageSelector.constructor (Some (constructor e)) in
  ∃ this1 d,
    LanguageSelector.switchLanguage engine this (txt "fr") heading (e, Some (constructor e))
    = (inr (this1, d), (e, Some (constructor e)))
    ∧ LanguageSelector.currentLanguage this1 = txt "fr"
    ∧ currentLanguage (constructor e) = txt "es".
Proof.
  intros e this. eexists _, _. split.
  - apply selector_switch_ignores_refusal.
    vm_compute. intros H. apply list_elem_of_In in H. simpl in H.
    destruct H as [H|[H|[]]]; discriminate.
  - split; reflexivity.
Defined.



(** ** The search: fetching *)

Lemma requests_requested fs : ∀ e, requests (requested fs e) = requests e ++ fs.
Proof.
  induction fs as [|f fs IH]; intros e; cbn [requested foldl].
  - by rewrite app_nil_r.
  - change (foldl (fun e f => log_request f e) (log_request f e) fs)
      with (requested fs (log_request f e)).
    rewrite IH. cbn [log_request requests]. by rewrite <- app_assoc.
Qed.

(** X15: [fetchFiles] never rejects.  It returns one text per file, at the
    index of the file: the body of the response, whatever its status is,
    and the empty string for a network error or a body that cannot be
    read.  It requests every file once, in the order of the list, and
    touches nothing else of the page. *)
Theorem fetchFiles_one_slot_per_file (b : Buscador) (p : page) :
  ∃ texts p1,
    fetchFiles b p = (inr texts, p1)
    ∧ length texts = length (files b)
    ∧ (∀ i f, files b !! i = Some f →
              texts !! i = Some (match net (penv p) f with
                                 | NetworkError => []
                                 | Fulfilled r => default [] (text r)
                                 end))
    ∧ requests (penv p1) = requests (penv p) ++ files b
    ∧ resultsEl p1 = resultsEl p
    ∧ window_i18n p1 = window_i18n p.
Proof.
  rewrite fetchFiles_slots. eexists _, _. split; [reflexivity|].
  split; [by rewrite length_map|].
  split; [|split; [apply requests_requested|by split]].
  intros i f Hf. rewrite list_lookup_fmap, Hf. reflexivity.
Qed.

(** ** The search: the container *)

Lemma querySelector_is_tag sel n : ∀ h, querySelector sel n = Some h → is_tag sel h = true.
Proof.
  induction n as [d|tg attrs v ks IH] using node_nested_ind; intros h; [discriminate|].
  cbn [querySelector]. induction IH as [|k ks Hk _ IHks]; [discriminate|].
  destruct (is_tag sel k) eqn:Hsel.
  - intros [= <-]. exact Hsel.
  - destruct (querySelector sel k) as [h'|] eqn:Hq.
    + intros [= <-]. by apply Hk.
    + exact IHks.
Qed.

Lemma querySelector_first sel tg attrs v h ks :
  is_tag sel h = true → querySelector sel (Element tg attrs v (h :: ks)) = Some h.
Proof. intros H. cbn [querySelector]. by rewrite H. Qed.

Lemma clearResultsEl_result p :
  clearResultsEl p =
    (inr tt,
     set_resultsEl
       ((fun el => set_children (match querySelector (txt "h2") el with
                                 | Some h => [h]
                                 | None => []
                                 end) el) <$> resultsEl p) p).
Proof.
  unfold clearResultsEl, on_resultsEl, modify. f_equal. f_equal.
  destruct (resultsEl p) as [el|]; [|reflexivity].
  cbn [fmap option_fmap option_map]. f_equal.
  destruct el as [d|tg attrs v ks]; [reflexivity|].
  generalize (querySelector (txt "h2") (Element tg attrs v ks)).
  by intros [h|].
Qed.

(** X16: [clearResultsEl] leaves the container with no child, or with one
    child that is an [h2]; a second call changes nothing. *)
Theorem clearResultsEl_keeps_only_heading (p : page) :
  let p1 := snd (clearResultsEl p) in
  clearResultsEl p1 = (inr tt, p1)
  ∧ ∀ el1, resultsEl p1 = Some el1 →
           kids el1 = [] ∨ ∃ h, kids el1 = [h] ∧ is_tag (txt "h2") h = true.
Proof.
  intros p1. subst p1. rewrite !clearResultsEl_result. cbn [snd].
  destruct p as [e o [[d|tg attrs v ks]|] ls si]; cbn [resultsEl set_resultsEl fmap option_fmap option_map penv window_i18n location_search search_input].
  - split; [reflexivity|]. intros el1 [= <-]. by left.
  - destruct (querySelector (txt "h2") (Element tg attrs v ks)) as [h|] eqn:Hq.
    + pose proof (querySelector_is_tag _ _ _ Hq) as Hh.
      cbn [set_children]. rewrite (querySelector_first _ _ _ _ _ _ Hh).
      split; [reflexivity|]. intros el1 [= <-]. right. by exists h.
    + cbn [set_children querySelector]. split; [reflexivity|].
      intros el1 [= <-]. by left.
  - split; [reflexivity|]. discriminate.
Qed.

Section Render.

Variable rt : runtime.

(** [message] reads [window.i18n] only, and changes nothing. *)
Lemma message_reads key fallback p :
  ∃ m, ∀ p1, window_i18n p1 = window_i18n p →
             message rt key fallback p1 = (m, p1).
Proof.
  destruct (window_i18n p) as [o|] eqn:Ho.
  - exists (match t rt o key with inl e => inl e | inr v => dom_convert v end).
    intros p1 H1. unfold message, bind, get. rewrite H1. unfold of_sum.
    destruct (t rt o key) as [e|v]; [reflexivity|]. by destruct (dom_convert v).
  - exists (inr fallback). intros p1 H1. unfold message, bind, get. by rewrite H1.
Qed.

Lemma dom_convert_throws v e : dom_convert v = inl e → e = not_primitive.
Proof.
  destruct v as [[]|]; cbn [dom_convert]; unfold to_string; try discriminate.
  all: match goal with |- context [converts ?j] => destruct (converts j) end.
  all: by intros [= <-].
Qed.

(** [message] throws only when the translation of the key is an object
    that has no string; without [window.i18n] it returns the text of
    the code. *)
Lemma message_throws key fallback p e p1 :
  Forall (fun k => restricted k = false) (split "." key) →
  message rt key fallback p = (inl e, p1) →
  e = not_primitive
  ∧ ∃ o j, window_i18n p = Some o ∧ t rt o key = inr (Some j) ∧ converts j = false.
Proof.
  intros Hkey. unfold message, bind, get.
  destruct (window_i18n p) as [o|] eqn:Ho; [|discriminate].
  destruct (t_returns rt o key Hkey) as (x & Hx & _).
  unfold of_sum. rewrite Hx.
  destruct (dom_convert (Some x)) as [e'|s'] eqn:Hc; [|discriminate].
  intros [= <- _]. split; [by eapply dom_convert_throws|].
  exists o, x. split; [done|]. split; [done|].
  destruct (converts x) eqn:Hcv; [|done]. exfalso.
  destruct x; cbn [dom_convert] in Hc; unfold to_string in Hc; try discriminate.
  all: rewrite Hcv in Hc; discriminate.
Qed.


Lemma message_keys_safe :
  Forall (fun k => restricted k = false) (split "." (txt "search.no_results"))
  ∧ Forall (fun k => restricted k = false) (split "." (txt "search.empty_query")).
Proof. split; by repeat constructor. Qed.

Lemma paragraph_no_heading s :
  is_tag (txt "h2") (paragraph s) = false ∧ querySelector (txt "h2") (paragraph s) = None.
Proof. destruct s; by vm_compute. Qed.

Lemma renderNoResults_content
        (p : page) (tg : str) (attrs : list (str * str)) (v : str) (ks : list node) :
  let el := Element tg attrs v ks in
  let hs := match querySelector (txt "h2") el with
            | Some h => [h]
            | None => []
            end in
  resultsEl p = Some el →
  ∃ m, message rt (txt "search.no_results") msg_no_results p = (m, p)
       ∧ match m with
         | inr s =>
             ∃ p1, renderNoResults rt p = (inr tt, p1)
                   ∧ resultsEl p1 = Some (Element tg attrs v (hs ++ [paragraph s]))
                   ∧ penv p1 = penv p ∧ window_i18n p1 = window_i18n p
                   ∧ renderNoResults rt p1 = (inr tt, p1)
         | inl e =>
             e = not_primitive
             ∧ renderNoResults rt p
               = (inl e, set_resultsEl (Some (Element tg attrs v hs)) p)
         end.
Proof.
  intros el hs Hel.
  destruct (message_reads (txt "search.no_results") msg_no_results p) as [m Hm].
  exists m. split; [by apply Hm|].
  assert (∀ p0 ks0,
            window_i18n p0 = window_i18n p →
            resultsEl p0 = Some (Element tg attrs v ks0) →
            renderNoResults rt p0 =
              let hs0 := match querySelector (txt "h2") (Element tg attrs v ks0) with
                         | Some h => [h]
                         | None => []
                         end in
              match m with
              | inr s =>
                  (inr tt,
                   set_resultsEl (Some (Element tg attrs v (hs0 ++ [paragraph s]))) p0)
              | inl e => (inl e, set_resultsEl (Some (Element tg attrs v hs0)) p0)
              end) as Hstep.
  { intros p0 ks0 Hw H0. unfold renderNoResults, bind at 1. unfold get. rewrite H0.
    unfold bind at 1. rewrite clearResultsEl_result, H0.
    cbn [fmap option_fmap option_map set_children].
    unfold bind at 1. rewrite Hm by (by destruct p0).
    destruct m as [e|s]; [reflexivity|].
    unfold on_resultsEl, modify. cbn [resultsEl set_resultsEl fmap option_fmap option_map].
    cbn [appendChild kids set_children]. by destruct p0. }
  destruct m as [e|s].
  - split; [|by apply (Hstep p ks)].
    by eapply message_throws; [apply (proj1 message_keys_safe)|apply Hm].
  - exists (set_resultsEl (Some (Element tg attrs v (hs ++ [paragraph s]))) p).
    split; [by apply (Hstep p ks)|].
    split; [reflexivity|]. split; [by destruct p|]. split; [by destruct p|].
    rewrite (Hstep _ (hs ++ [paragraph s])); [|by destruct p|by destruct p].
    cbv zeta.
    assert (match querySelector (txt "h2") (Element tg attrs v (hs ++ [paragraph s])) with
            | Some h => [h]
            | None => []
            end = hs) as ->; [|by destruct p].
    subst hs. destruct (querySelector (txt "h2") el) as [h|] eqn:Hq.
    + pose proof (querySelector_is_tag _ _ _ Hq) as Hh.
      cbn [app]. by rewrite (querySelector_first _ _ _ _ _ _ Hh).
    + cbn [app querySelector].
      destruct (paragraph_no_heading s) as [-> ->]. reflexivity.
Qed.

(** X17: [renderNoResults] replaces what the container showed: afterwards its
    children are the [h2] found in it, if any, and one paragraph with
    the message, and nothing else; a second call changes nothing.  When
    the translation of the message is an object that has no string, it
    throws after it has cleared the container: the [h2] is all that is
    left. *)
Theorem renderNoResults_replaces_content
        (p : page) (tg : str) (attrs : list (str * str)) (v : str) (ks : list node) :
  let el := Element tg attrs v ks in
  let hs := match querySelector (txt "h2") el with
            | Some h => [h]
            | None => []
            end in
  resultsEl p = Some el →
  ∃ m, message rt (txt "search.no_results") msg_no_results p = (m, p)
       ∧ match m with
         | inr s =>
             ∃ p1, renderNoResults rt p = (inr tt, p1)
                   ∧ resultsEl p1 = Some (Element tg attrs v (hs ++ [paragraph s]))
                   ∧ penv p1 = penv p ∧ window_i18n p1 = window_i18n p
                   ∧ renderNoResults rt p1 = (inr tt, p1)
         | inl e =>
             e = not_primitive
             ∧ renderNoResults rt p
               = (inl e, set_resultsEl (Some (Element tg attrs v hs)) p)
         end.
Proof. apply renderNoResults_content. Qed.




End Render.

Lemma renderNoResults_replaces_content_witness :
  let p := a_page site [] (Some (section_with [heading; old_article])) in
  ∃ p1, renderNoResults engine p = (inr tt, p1)
        ∧ kids <$> resultsEl p1 = Some [heading; paragraph msg_no_results].
Proof.
  intros p.
  destruct (renderNoResults_replaces_content engine p
              (txt "SECTION") [] [] [heading; old_article] eq_refl)
    as (m & Hm & H).
  injection Hm as <-. destruct H as (p1 & H1 & H2 & _).
  exists p1. split; [exact H1|]. rewrite H2. reflexivity.
Defined.


(** ** trim *)

Abbreviation blank := (Forall (fun c => is_white c = true)).

Lemma trimStart_split s : ∃ a, s = a ++ trimStart s ∧ blank a.
Proof.
  induction s as [|c s (a & Ha & Hw)]; [by exists []|].
  cbn [trimStart]. destruct (is_white c) eqn:Hc.
  - exists (c :: a). split; [by cbn; rewrite <- Ha|by constructor].
  - by exists [].
Qed.

Lemma trimStart_head s c r : trimStart s = c :: r → is_white c = false.
Proof.
  induction s as [|d s IH]; [discriminate|]. cbn [trimStart].
  destruct (is_white d) eqn:Hd; [done|]. by intros [= <- _].
Qed.

Lemma trimEnd_split s : ∃ z, s = trimEnd s ++ z ∧ blank z.
Proof.
  destruct (trimStart_split (rev s)) as (a & Ha & Hw). exists (rev a). split.
  - unfold trimEnd. rewrite <- rev_app_distr, <- Ha. by rewrite rev_involutive.
  - apply Forall_forall. intros c Hc. rewrite Forall_forall in Hw. apply Hw.
    apply list_elem_of_In. apply list_elem_of_In in Hc. by apply in_rev.
Qed.

Lemma trimEnd_last s r z : trimEnd s = r ++ [z] → is_white z = false.
Proof.
  unfold trimEnd. intros H. apply (f_equal (@rev ascii)) in H.
  rewrite rev_involutive, rev_app_distr in H. cbn in H. by eapply trimStart_head.
Qed.

Lemma trim_split s : ∃ a z, s = a ++ trim s ++ z ∧ blank a ∧ blank z.
Proof.
  destruct (trimStart_split s) as (a & Ha & Hwa).
  destruct (trimEnd_split (trimStart s)) as (z & Hz & Hwz).
  exists a, z. unfold trim. by rewrite <- Hz.
Qed.

Lemma trim_head s c r : trim s = c :: r → is_white c = false.
Proof.
  intros H. destruct (trimEnd_split (trimStart s)) as (z & Hz & _).
  fold (trim s) in Hz. rewrite H in Hz. by eapply trimStart_head.
Qed.

Lemma trim_last s r z : trim s = r ++ [z] → is_white z = false.
Proof. apply trimEnd_last. Qed.

Lemma trim_blank s : trim s = [] ↔ blank s.
Proof.
  split.
  - intros H. destruct (trim_split s) as (a & z & Hs & Ha & Hz).
    rewrite H in Hs. rewrite Hs. apply Forall_app. by split.
  - intros H. unfold trim.
    assert (trimStart s = []) as ->; [|reflexivity].
    induction H as [|c s Hc _ IH]; [done|]. cbn [trimStart]. by rewrite Hc.
Qed.

(** ** The search as a whole: what it reads, requests and shows *)

Section Search.

Variable rt : runtime.

Lemma getQuery_trim (b : Buscador) (p : page) :
  ∃ q, getQuery b p = (inr q, p)
       ∧ (q = [] ↔ ∀ raw, assoc (param b) (location_search p) = Some raw → blank raw)
       ∧ (∀ raw, assoc (param b) (location_search p) = Some raw →
                 ∃ a z, raw = a ++ q ++ z ∧ blank a ∧ blank z)
       ∧ (∀ c r, q = c :: r → is_white c = false)
       ∧ (∀ r c, q = r ++ [c] → is_white c = false).
Proof.
  exists (trim (default [] (str_or (assoc (param b) (location_search p)) (Some [])))).
  split; [reflexivity|].
  destruct (assoc (param b) (location_search p)) as [raw|].
  - replace (default [] (str_or (Some raw) (Some []))) with raw by (by destruct raw).
    split; [|split; [|split]].
    + rewrite trim_blank. split; [by intros H ? [= <-]|]. intros H. by apply H.
    + intros ? [= <-]. apply trim_split.
    + apply trim_head.
    + apply trim_last.
  - cbn. split; [done|]. split; [done|]. split; [done|]. by intros [|? ?].
Qed.

(** X19: The query is the value of the parameter without the white space
    around it: it is empty exactly when the parameter is absent or
    blank, and otherwise it neither starts nor ends with white space. *)
Theorem getQuery_is_trimmed (b : Buscador) (p : page) :
  ∃ q, getQuery b p = (inr q, p)
       ∧ (q = [] ↔ ∀ raw, assoc (param b) (location_search p) = Some raw → blank raw)
       ∧ (∀ raw, assoc (param b) (location_search p) = Some raw →
                 ∃ a z, raw = a ++ q ++ z ∧ blank a ∧ blank z)
       ∧ (∀ c r, q = c :: r → is_white c = false)
       ∧ (∀ r c, q = r ++ [c] → is_white c = false).
Proof. apply getQuery_trim. Qed.

Lemma setInputValue_frame b q p :
  search_input p (inputSelector b) ≠ BadSelector →
  ∃ p0, setInputValue b q p = (inr tt, p0)
        ∧ penv p0 = penv p ∧ window_i18n p0 = window_i18n p.
Proof.
  intros H. unfold setInputValue.
  destruct (search_input p (inputSelector b)); [done|by eexists..].
Qed.

(** Writing the query to the input changes the container only when the
    input is in it. *)
Lemma setInputValue_container b q p :
  resultsEl (snd (setInputValue b q p))
  = match search_input p (inputSelector b) with
    | Inside path => set_value_at path q <$> resultsEl p
    | _ => resultsEl p
    end.
Proof. unfold setInputValue. by destruct (search_input p (inputSelector b)). Qed.

(** X20: With no query, or a blank one, [search] requests nothing, logs
    nothing and leaves the translation store as it is: it only appends
    one paragraph with the message to what the container shows once the
    empty query is written to the input, which changes the container
    only when the input is in it.  When the translation of the message
    is an object that has no string, it throws and appends nothing. *)
Theorem search_blank_query_fetches_nothing (b : Buscador) (p : page) :
  let p0 := snd (setInputValue b [] p) in
  (∀ raw, assoc (param b) (location_search p) = Some raw → blank raw) →
  search_input p (inputSelector b) ≠ BadSelector →
  ∃ r p1, search rt b p = (r, p1)
          ∧ penv p1 = penv p
          ∧ window_i18n p1 = window_i18n p
          ∧ ((∀ path, search_input p (inputSelector b) ≠ Inside path) →
             resultsEl p0 = resultsEl p)
          ∧ (resultsEl p0 = None → r = inr tt ∧ resultsEl p1 = None)
          ∧ ∀ tg attrs v ks,
              resultsEl p0 = Some (Element tg attrs v ks) →
              ∃ m, message rt (txt "search.empty_query") msg_empty_query p = (m, p)
                   ∧ match m with
                     | inr s =>
                         r = inr tt
                         ∧ resultsEl p1 = Some (Element tg attrs v (ks ++ [paragraph s]))
                     | inl e =>
                         r = inl e ∧ e = not_primitive ∧ resultsEl p1 = resultsEl p0
                     end.
Proof.
  intros p0 Hblank Hsel.
  assert (p0 = snd (setInputValue b [] p)) as Hdef by reflexivity. clearbody p0.
  destruct (getQuery_trim b p) as (q & Hq & Hempty & _).
  apply Hempty in Hblank. subst q.
  rewrite search_empty_query; [|by rewrite Hq|done]. rewrite <- Hdef.
  destruct (setInputValue_frame b [] p Hsel) as (p0' & Hp0 & He & Hw).
  assert (p0' = p0) as -> by (by rewrite Hdef, Hp0). clear Hp0.
  assert ((∀ path, search_input p (inputSelector b) ≠ Inside path) →
          resultsEl p0 = resultsEl p) as Hout.
  { intros Hno. rewrite Hdef, setInputValue_container.
    destruct (search_input p (inputSelector b)) as [| | |path]; try done.
    by destruct (Hno path). }
  destruct (message_reads rt (txt "search.empty_query") msg_empty_query p) as [m Hm].
  unfold renderNoQuery, bind at 1. unfold get.
  destruct (resultsEl p0) as [el|] eqn:Hel.
  - unfold bind. rewrite (Hm p0 Hw). destruct m as [e|s].
    + exists (inl e), p0. split; [reflexivity|]. split; [done|]. split; [done|].
      split; [done|]. split; [done|].
      intros tg attrs v ks Hp. exists (inl e). split; [by apply Hm|].
      split; [done|]. split; [|done].
      by eapply message_throws; [apply (proj2 message_keys_safe)|apply (Hm p)].
    + unfold on_resultsEl, modify. rewrite Hel.
      eexists (inr tt), _. split; [reflexivity|]. split; [by destruct p0|].
      split; [by destruct p0|]. split; [done|]. split; [done|].
      intros tg attrs v ks Hp. exists (inr s). split; [by apply Hm|].
      split; [done|]. injection Hp as ->. by destruct p0.
  - exists (inr tt), p0. split; [done|]. split; [done|]. split; [done|].
    split; [done|]. split; [done|]. discriminate.
Qed.


(** The request for the translations that [search] makes before the
    files, if any. *)
Local Abbreviation translations_wanted p :=
  (match window_i18n p with
   | Some o =>
       match currentLanguage o with
       | [] => []
       | _ :: _ =>
           if truthy (table_of rt o (currentLanguage o)) then []
           else [translation_url (currentLanguage o)]
       end
   | None => []
   end).






Lemma search_bad_selector b p :
  search_input p (inputSelector b) = BadSelector →
  search rt b p = (inl (SyntaxError (txt "The string is not a valid selector")), p).
Proof.
  intros Hbad. unfold search. unfold bind at 1. rewrite getQuery_reads.
  cbn [fst]. unfold bind, setInputValue. by rewrite Hbad.
Qed.






End Search.

(** ** The snippet and the length of the query *)

Section Reach.

Variable fold : ascii -> ascii.









End Reach.

Section Shown.

Variable rt : runtime.



End Shown.




(** ** run *)

Section Run.

Variable rt : runtime.

(** X25: [run] never rejects, in the script and in the module.  When
    [search] returns, it does what [search] does and logs nothing more.
    When [search] throws, one line is logged with the exception; the
    script leaves the container as [search] left it, and the module
    replaces its content with the error message.  When the input
    selector is not a selector, nothing is requested before, and the
    container of the script is as it was before [run]. *)
Theorem run_never_rejects (b : Buscador) (p : page) :
  let line := txt "Buscador error: SyntaxError: The string is not a valid selector" in
  (∃ p1, run rt b p = (inr tt, p1) ∧ run_module rt b p = (inr tt, snd (run_module rt b p)))
  ∧ (∀ p1, search rt b p = (inr tt, p1) →
           run rt b p = search rt b p ∧ run_module rt b p = search rt b p)
  ∧ (∀ e p1, search rt b p = (inl e, p1) →
             let p2 := snd (run rt b p) in
             let p3 := snd (run_module rt b p) in
             console (penv p2) = console (penv p1) ++ [txt "Buscador error: " ++ exn_text e]
             ∧ console (penv p3) = console (penv p1) ++ [txt "Buscador error: " ++ exn_text e]
             ∧ requests (penv p2) = requests (penv p1)
             ∧ requests (penv p3) = requests (penv p1)
             ∧ resultsEl p2 = resultsEl p1
             ∧ resultsEl p3 = set_children (parseHTML rt msg_error) <$> resultsEl p1)
  ∧ (search_input p (inputSelector b) = BadSelector →
     let p1 := snd (run rt b p) in
     let p2 := snd (run_module rt b p) in
     console (penv p1) = console (penv p) ++ [line]
     ∧ console (penv p2) = console (penv p) ++ [line]
     ∧ requests (penv p1) = requests (penv p)
     ∧ requests (penv p2) = requests (penv p)
     ∧ resultsEl p1 = resultsEl p
     ∧ resultsEl p2 = set_children (parseHTML rt msg_error) <$> resultsEl p).
Proof.
  intros line.
  assert (∀ e p1, search rt b p = (inl e, p1) →
          run rt b p
          = (inr tt, set_penv (log_error (txt "Buscador error: " ++ exn_text e) (penv p1)) p1)
          ∧ run_module rt b p
            = (inr tt,
               set_resultsEl (set_children (parseHTML rt msg_error) <$> resultsEl p1)
                 (set_penv (log_error (txt "Buscador error: " ++ exn_text e) (penv p1)) p1)))
    as Hthrown.
  { intros e p1 H.
    unfold run, run_guard, run_module, run_module_guard, try_catch.
    rewrite H. split; reflexivity. }
  split; [|split; [|split]].
  - destruct (search rt b p) as [[e|[]] p1] eqn:Hs.
    + destruct (Hthrown e p1 eq_refl) as [-> ->]. by eexists.
    + unfold run, run_guard, run_module, run_module_guard, try_catch. rewrite Hs.
      by eexists.
  - intros p1 H. unfold run, run_guard, run_module, run_module_guard, try_catch.
    by rewrite H.
  - intros e p1 H. destruct (Hthrown e p1 H) as [-> ->]. cbn [snd].
    by destruct p1.
  - intros Hsel.
    destruct (Hthrown _ _ (search_bad_selector rt b p Hsel)) as [-> ->]. cbn [snd].
    by destruct p.
Qed.

End Run.

Lemma run_never_rejects_witness :
  let b := a_buscador [txt "index.html"] in
  let p := a_page site (txt "hola") (Some (section_with [heading])) in
  run engine b p = search engine b p ∧ run_module engine b p = search engine b p.
Proof.
  intros b p. destruct (run_never_rejects engine b p) as (_ & H & _).
  apply (H (snd (search engine b p))). vm_compute. reflexivity.
Defined.

(** ** escapeRegExp *)

Lemma not_meta_not_backslash c : is_meta c = false → Ascii.eqb c "\" = false.
Proof.
  intros H. destruct (Ascii.eqb_spec c "\"%char) as [->|]; [|done].
  vm_compute in H. discriminate.
Qed.

Lemma unescape_escape_units s : unescape (escape_units s) = s.
Proof.
  induction s as [|c s IH]; [done|].
  change (escape_units (c :: s))
    with ((if is_meta c then ["\"%char; c] else [c]) ++ escape_units s).
  destruct (is_meta c) eqn:Hc.
  - cbn. by rewrite IH.
  - cbn. rewrite (not_meta_not_backslash _ Hc). by rewrite IH.
Qed.

(** X28: [escapeRegExp] loses nothing: taking the backslashes off gives the
    text back, so two texts with the same escaped form are the same
    text; the escaped text has between one and two units per unit of
    the text, and a text without metacharacters is left as it is. *)
Theorem escapeRegExp_can_be_undone (s : str) :
  unescape (escapeRegExp s) = s
  ∧ (∀ s', escapeRegExp s = escapeRegExp s' → s = s')
  ∧ (length s ≤ length (escapeRegExp s) ≤ 2 * length s)%nat
  ∧ (Forall (fun c => is_meta c = false) s → escapeRegExp s = s).
Proof.
  split; [|split; [|split]].
  - by rewrite escapeRegExp_units, unescape_escape_units.
  - intros s' H. apply (f_equal unescape) in H.
    by rewrite !escapeRegExp_units, !unescape_escape_units in H.
  - rewrite escapeRegExp_units. induction s as [|c s IH]; [cbn; lia|].
    change (escape_units (c :: s))
      with ((if is_meta c then ["\"%char; c] else [c]) ++ escape_units s).
    rewrite length_app. destruct (is_meta c); cbn [length]; lia.
  - rewrite escapeRegExp_units. induction 1 as [|c s Hc _ IH]; [done|].
    change (escape_units (c :: s))
      with ((if is_meta c then ["\"%char; c] else [c]) ++ escape_units s).
    rewrite Hc, IH. reflexivity.
Qed.

(** ** init *)

(** X10: [init] never rejects, even when the translations cannot be loaded.
    It sets the language of the document to the current language, makes
    one request at most, and leaves the current language and the stored
    preference as they are. *)
Theorem init_sets_document_language (rt : runtime) (e : env) (o : I18n) :
  ∃ e1 o1, init rt (e, o) = (inr tt, (e1, o1))
           ∧ document_lang e1 = currentLanguage o
           ∧ currentLanguage o1 = currentLanguage o
           ∧ localStorage e1 = localStorage e
           ∧ (requests e1 = requests e
              ∨ requests e1 = requests e ++ [translation_url (currentLanguage o)]).
Proof.
  destruct (loadTranslations_frame rt (currentLanguage o) e o)
    as (e1 & o1 & Hload & Hlang & _ & Hstore & _ & Hreq).
  unfold init. unfold bind at 1. unfold this at 1. unfold bind at 1. rewrite Hload.
  eexists _, _. split; [reflexivity|]. by cbn.
Qed.

(** ** The search on the sample site *)

Lemma search_blank_query_fetches_nothing_witness :
  let b := a_buscador [txt "index.html"] in
  let p := a_page site (txt "   ") (Some (section_with [heading])) in
  ∃ p1, search engine b p = (inr tt, p1) ∧ requests (penv p1) = [].
Proof.
  intros b p.
  destruct (search_blank_query_fetches_nothing engine b p)
    as (r & p1 & H1 & He & _ & _ & _ & Hshown).
  - intros raw H. vm_compute in H. injection H as <-. by repeat constructor.
  - vm_compute. discriminate.
  - destruct (Hshown _ _ _ _ eq_refl) as (m & Hm & Hout).
    injection Hm as <-. destruct Hout as [-> _].
    exists p1. split; [exact H1|]. by rewrite He.
Defined.





(** ** A translation that is an object without a string *)

(** With the table [{ "search": { "no_results": { "toString": "x" } } }]
    and a query that no page has, [search] requests the page, clears the
    container and throws when it sets the text of the message: the
    [h2] is all that is left, and [run] logs the exception.  [translate]
    throws on an element with that key, and leaves the element as it
    was. *)
Lemma search_throws_on_message_without_string :
  let b := a_buscador [txt "index.html"] in
  let p := set_i18n (Some odd_store)
                    (a_page site (txt "nada") (Some (section_with [heading; old_article]))) in
  let doc := two_paragraphs
               (Element (txt "P") [(txt "data-i18n", txt "search.no_results")] []
                        [TextNode (txt "uno")])
               (translated_paragraph (txt "dos")) in
  fst (search engine b p) = inl not_primitive
  ∧ requests (penv (snd (search engine b p))) = [txt "index.html"]
  ∧ resultsEl (snd (search engine b p)) = Some (section_with [heading])
  ∧ fst (run engine b p) = inr tt
  ∧ console (penv (snd (run engine b p)))
    = [txt "Buscador error: TypeError: Cannot convert object to primitive value"]
  ∧ translate_run engine odd_store doc = (doc, Some not_primitive).
Proof. by vm_compute. Qed.

(** ** A search input in the results container *)

(** With the input in the container, a blank query empties the value of
    the input, in the container, before the message is appended; with a
    query the container is cleared, and the input goes with what it
    showed. *)
Lemma search_with_input_in_container :
  let b := a_buscador [txt "index.html"] in
  resultsEl (snd (search engine b (a_page_with_input_inside site (txt "  "))))
  = Some (section_with [heading; search_box []; paragraph msg_empty_query])
  ∧ resultsEl (snd (setInputValue b (txt "hola")
                      (a_page_with_input_inside site (txt "hola"))))
    = Some (section_with [heading; search_box (txt "hola")])
  ∧ kids <$> resultsEl (snd (search engine b (a_page_with_input_inside site (txt "hola"))))
    = Some [heading;
            article engine {| file := Some (txt "index.html");
                               snippet := txt "<p><mark>Hola</mark> mundo</p>" |}].
Proof. by vm_compute. Qed.
